(** * movie-night: the ranked-choice tally, the phase schedule and the ledger

    A shallow embedding of the decision logic of [src/App.tsx]:
    - [calculateInstantRunoffWinner], the instant-runoff tally, with the vote
      objects it mutates kept in an explicit store;
    - [determineCurrentPhase], the day-of-week phase schedule;
    - [handleSubmitMovie] and [handleSubmitVotes], the two handlers that
      write submissions and votes to the relational store. *)

From Stdlib Require Import ZArith.
From stdpp Require Import sorting functions gmap fin_maps strings pretty.
From stdpp Require Import list.

Set Warnings "-clear-no-such-hyp".

Local Open Scope Z_scope.
Local Open Scope nat_scope.

(** ** The tally *)

Module Tally.

(** A vote is a JavaScript object: the tally reads and writes its [rank]
    field through a reference, and the same object may be reachable from
    several arrays.  [ref] is the identity of a vote object and [heap] gives
    the current [rank] of every object. *)
Definition ref := nat.
Definition heap := ref → Z.

(** [SubmissionWithDetails], with the fields the tally can see.  [votes] is
    the array of vote objects joined to the submission. *)
Record SubmissionWithDetails := mkSubmission {
  submission_id : nat;
  night_id : nat;
  user_id : nat;
  movie_id : nat;
  votes : list ref;
  voteCount : nat
}.

(** [submissions.reduce((acc, s) => { acc[s.submission_id] = s.votes || [];
    return acc }, {})]: a later submission with the same id overwrites an
    earlier one. *)
Definition votesBySubmission (submissions : list SubmissionWithDetails)
  : gmap nat (list ref) :=
  foldl (λ acc submission, <[submission_id submission := votes submission]> acc)
        ∅ submissions.

(** [Object.values(votesBySubmission)]: the values of an object with integer
    keys come in ascending order of the keys. *)
Definition key_le (e1 e2 : nat * list ref) : Prop := e1.1 ≤ e2.1.

Global Instance key_le_dec : RelDecision key_le.
Proof. intros e1 e2. unfold key_le. apply _. Defined.

Definition object_values (o : gmap nat (list ref)) : list (list ref) :=
  (merge_sort key_le (map_to_list o)).*2.

(** [votesBySubmission[id]]; every id that is looked up was stored by the
    reduce above (lemma [votesBySubmission_lookup_is_Some]). *)
Definition votes_of (o : gmap nat (list ref)) (id : nat) : list ref :=
  default [] (o !! id).

(** A JavaScript [Map<number, number>] keeps its keys in insertion order;
    [set] on a key that is present replaces the value where it stands. *)
Fixpoint Map_set (k v : nat) (m : list (nat * nat)) : list (nat * nat) :=
  match m with
  | [] => [(k, v)]
  | (k', v') :: m' =>
      if decide (k' = k) then (k, v) :: m' else (k', v') :: Map_set k v m'
  end.

Fixpoint Map_get (k : nat) (m : list (nat * nat)) : option nat :=
  match m with
  | [] => None
  | (k', v') :: m' => if decide (k' = k) then Some v' else Map_get k m'
  end.

(** [votes.filter(vote => vote.rank === 1).length] *)
Definition firstChoiceVotes (h : heap) (vs : list ref) : nat :=
  length (filter (λ r, h r = 1%Z) vs).

(** The [forEach] that fills [voteCounts]. *)
Definition countVotes (o : gmap nat (list ref)) (h : heap)
    (remaining : list SubmissionWithDetails) : list (nat * nat) :=
  foldl (λ voteCounts submission,
           Map_set (submission_id submission)
                   (firstChoiceVotes h (votes_of o (submission_id submission)))
                   voteCounts)
        [] remaining.

(** [Array.from(voteCounts.values()).reduce((sum, count) => sum + count, 0)] *)
Definition totalVotes (voteCounts : list (nat * nat)) : nat :=
  foldl (λ sum count, sum + count) 0 (voteCounts.*2).

(** [voteCount > totalVotes / 2]: the division is exact (a half for an odd
    total), so the test is [totalVotes < 2 * voteCount]. *)
Definition has_majority (voteCounts : list (nat * nat)) (total : nat)
    (submission : SubmissionWithDetails) : Prop :=
  total < 2 * default 0 (Map_get (submission_id submission) voteCounts).

Global Instance has_majority_dec vc total s : Decision (has_majority vc total s).
Proof. unfold has_majority. apply _. Defined.

(** The [for ... of] that looks for a winner and breaks at the first one. *)
Definition findWinner (voteCounts : list (nat * nat))
    (remaining : list SubmissionWithDetails) : option SubmissionWithDetails :=
  snd <$> list_find (has_majority voteCounts (totalVotes voteCounts)) remaining.

(** [Math.min(...values)]; [None] stands for the [Infinity] of no argument. *)
Definition minVotes (values : list nat) : option nat :=
  match values with
  | [] => None
  | v :: vs => Some (foldl Nat.min v vs)
  end.

(** [Array.from(voteCounts.entries()).find(([_, count]) => count ===
    minVotes)?.[0]]; [None] is [undefined]. *)
Definition losingSubmissionId (voteCounts : list (nat * nat)) : option nat :=
  (λ e, fst (snd e)) <$>
    list_find (λ e : nat * nat, Some (snd e) = minVotes (voteCounts.*2)) voteCounts.

(** [if (vote.rank > threshold) vote.rank -= 1] on one vote object. *)
Definition rerank_vote (threshold : nat) (h : heap) (r : ref) : heap :=
  if decide (Z.of_nat threshold < h r)%Z then <[r := (h r - 1)%Z]> h else h.

(** [Object.values(votesBySubmission).forEach(votes => votes.forEach(...))] *)
Definition rerank (threshold : nat) (o : gmap nat (list ref)) (h : heap) : heap :=
  foldl (λ h vs, foldl (rerank_vote threshold) h vs) h (object_values o).

(** What one pass through the body of the [while] leaves behind: a winner,
    or a smaller [remainingSubmissions] and the re-ranked votes. *)
Inductive round_result :=
  | Winner (submission : SubmissionWithDetails)
  | Eliminated (remaining : list SubmissionWithDetails) (h : heap).

Definition round (o : gmap nat (list ref)) (h : heap)
    (remaining : list SubmissionWithDetails) : round_result :=
  let voteCounts := countVotes o h remaining in
  match findWinner voteCounts remaining with
  | Some submission => Winner submission
  | None =>
      let losing := losingSubmissionId voteCounts in
      let remaining' :=
        filter (λ s, Some (submission_id s) ≠ losing) remaining in
      match losing with
      | Some id =>
          (* [if (losingSubmissionId)]: the id 0 is falsy *)
          if decide (id = 0) then Eliminated remaining' h
          else
            match Map_get id voteCounts with
            | Some threshold => Eliminated remaining' (rerank threshold o h)
            | None => Eliminated remaining' h
            end
      | None => Eliminated remaining' h
      end
  end.

(** The [while (!winner && remainingSubmissions.length > 0)] loop, with the
    number of passes it made.  [None]: the fuel ran out first. *)
Fixpoint runoff (fuel : nat) (o : gmap nat (list ref)) (h : heap)
    (remaining : list SubmissionWithDetails)
  : option (option SubmissionWithDetails * list SubmissionWithDetails * heap * nat) :=
  match remaining with
  | [] => Some (None, [], h, 0)
  | _ :: _ =>
      match fuel with
      | 0 => None
      | S fuel' =>
          match round o h remaining with
          | Winner submission => Some (Some submission, remaining, h, 1)
          | Eliminated remaining' h' =>
              '(winner, rest, hf, n) ← runoff fuel' o h' remaining';
              Some (winner, rest, hf, S n)
          end
      end
  end.

(** [winner || remainingSubmissions[0] || null] *)
Definition result_of (winner : option SubmissionWithDetails)
    (remaining : list SubmissionWithDetails) : option SubmissionWithDetails :=
  match winner with
  | Some submission => Some submission
  | None => head remaining
  end.

(** [calculateInstantRunoffWinner]: the value returned ([None] is [null])
    and the ranks of the vote objects when it returns. *)
Definition calculateInstantRunoffWinner_fuel (fuel : nat) (h : heap)
    (submissions : list SubmissionWithDetails)
  : option (option SubmissionWithDetails * heap) :=
  match submissions with
  | [] => Some (None, h)
  | _ :: _ =>
      '(winner, remaining, hf, _) ←
        runoff fuel (votesBySubmission submissions) h submissions;
      Some (result_of winner remaining, hf)
  end.

Definition calculateInstantRunoffWinner (h : heap)
    (submissions : list SubmissionWithDetails)
  : option (option SubmissionWithDetails * heap) :=
  calculateInstantRunoffWinner_fuel (length submissions) h submissions.

(** *** Notions used to state the properties *)

(** The count that [voteCounts] records for an id. *)
Definition count_for (o : gmap nat (list ref)) (h : heap) (id : nat) : nat :=
  firstChoiceVotes h (votes_of o id).

(** All vote objects reachable from a list of submissions. *)
Definition ballots (submissions : list SubmissionWithDetails) : list ref :=
  mjoin (votes <$> submissions).

(** What one visit does to the rank of the vote it visits. *)
Definition decrement_above (threshold : nat) (rank : Z) : Z :=
  if decide (Z.of_nat threshold < rank)%Z then (rank - 1)%Z else rank.

(** The first-place ballots of a submission: its own votes of rank 1. *)
Definition first_place (h : heap) (s : SubmissionWithDetails) : nat :=
  firstChoiceVotes h (votes s).

Definition total_first_place (h : heap) (l : list SubmissionWithDetails) : nat :=
  sum_list (first_place h <$> l).

(** A strict majority of the first-place ballots of [l]. *)
Definition majority_in (h : heap) (l : list SubmissionWithDetails)
    (s : SubmissionWithDetails) : Prop :=
  total_first_place h l < 2 * first_place h s.

Global Instance majority_in_dec h l s : Decision (majority_in h l s).
Proof. unfold majority_in. apply _. Defined.

Definition no_majority (o : gmap nat (list ref)) (h : heap)
    (remaining : list SubmissionWithDetails) : Prop :=
  Forall (λ s, ¬ has_majority (countVotes o h remaining)
                              (totalVotes (countVotes o h remaining)) s)
         remaining.

(** Round after round finds no majority and removes candidates until none
    is left. *)
Inductive all_eliminated (o : gmap nat (list ref))
  : heap → list SubmissionWithDetails → Prop :=
  | all_eliminated_nil h : all_eliminated o h []
  | all_eliminated_round h remaining remaining' h' :
      remaining ≠ [] →
      no_majority o h remaining →
      round o h remaining = Eliminated remaining' h' →
      all_eliminated o h' remaining' →
      all_eliminated o h remaining.

(** The ranks after a candidate with [c] first-place ballots has been
    eliminated, as the re-ranking is described: each ballot of a candidate of
    the input whose rank is above [c] loses 1, every other rank stays. *)
Definition reranked (submissions : list SubmissionWithDetails) (c : nat)
    (h h' : heap) : Prop :=
  ∀ r, h' r = if decide (r ∈ ballots submissions)
              then decrement_above c (h r) else h r.

(** Every candidate is eliminated, round by round, and no candidate ever
    holds a strict majority.  This is stated on the ballots alone: in each
    round no remaining candidate has more than half of the first-place
    ballots, the first candidate with the least first-place count leaves, and
    the ranks change as [reranked] says. *)
Inductive eliminated_without_majority (submissions : list SubmissionWithDetails)
  : heap → list SubmissionWithDetails → Prop :=
  | eliminated_none h : eliminated_without_majority submissions h []
  | eliminated_next h h' remaining l1 x l2 :
      remaining = l1 ++ x :: l2 →
      Forall (λ s, ¬ majority_in h remaining s) remaining →
      Forall (λ s, first_place h x ≤ first_place h s) remaining →
      Forall (λ s, first_place h x < first_place h s) l1 →
      reranked submissions (first_place h x) h h' →
      eliminated_without_majority submissions h' (l1 ++ l2) →
      eliminated_without_majority submissions h remaining.

(** Two stores that give every vote of the input the same rank. *)
Definition agree (submissions : list SubmissionWithDetails) (h1 h2 : heap) : Prop :=
  ∀ r, r ∈ ballots submissions → h1 r = h2 r.

(** *** Some inputs *)

(** A store given by the list of its ranks: object [r] has rank [ranks !! r]. *)
Definition heap_of (ranks : list Z) : heap := λ r, default 0%Z (ranks !! r).

Definition candidate (id : nat) (vs : list ref) : SubmissionWithDetails :=
  mkSubmission id 1 1 id vs (length vs).

(** The ranks of the vote objects once the tally has returned. *)
Definition ranks_after (h : heap) (submissions : list SubmissionWithDetails) : heap :=
  match calculateInstantRunoffWinner h submissions with
  | Some (_, hf) => hf
  | None => h
  end.

(** Three movies and four voters who each rank the three: the vote of voter
    [i] (from 0) is object [i] for A, [4 + i] for B and [8 + i] for C. *)
Definition movieA : SubmissionWithDetails := candidate 1 [0; 1; 2; 3].
Definition movieB : SubmissionWithDetails := candidate 2 [4; 5; 6; 7].
Definition movieC : SubmissionWithDetails := candidate 3 [8; 9; 10; 11].

(** Voters: A B C, B A C, C A B, C A B.  No majority in the first round. *)
Definition split_ranks : heap :=
  heap_of [1; 2; 2; 2;  2; 1; 3; 3;  3; 3; 1; 1]%Z.

(** The same ranks for A and B, other ranks for the votes for C. *)
Definition split_ranks_other : heap :=
  heap_of [1; 2; 2; 2;  2; 1; 3; 3;  1; 1; 2; 3]%Z.

(** Voters: B A C, A B C, B A C, B A C.  B holds three of four first places. *)
Definition majority_ranks : heap :=
  heap_of [2; 1; 2; 2;  1; 2; 1; 1;  3; 3; 3; 3]%Z.

(** Two voters put A first and B second, two put B first and A second. *)
Definition tied_ranks : heap :=
  heap_of [1; 1; 2; 2;  2; 2; 1; 1]%Z.

(** *** Past winners *)

(** [Object.values] of an object keyed by night: ascending order of the
    keys. *)
Definition night_le (e1 e2 : nat * SubmissionWithDetails) : Prop := e1.1 ≤ e2.1.

Global Instance night_le_dec : RelDecision night_le.
Proof. intros e1 e2. unfold night_le. apply _. Defined.

(** [{ ...submission, voteCount }] with [voteCount = submission.votes?.length
    || 0]. *)
Definition withVoteCount (submission : SubmissionWithDetails) : SubmissionWithDetails :=
  {| submission_id := submission_id submission;
     night_id := night_id submission;
     user_id := user_id submission;
     movie_id := movie_id submission;
     votes := votes submission;
     voteCount := length (votes submission) |}.

(** The reduce of [fetchPastWinners]: per night, the entry is replaced when
    there is none yet or when the current submission has more votes. *)
Definition pastWinnersByNight (allSubmissions : list SubmissionWithDetails)
  : gmap nat SubmissionWithDetails :=
  foldl (λ acc submission,
           let nightId := night_id submission in
           let count := length (votes submission) in
           match acc !! nightId with
           | None => <[nightId := withVoteCount submission]> acc
           | Some best =>
               if decide (voteCount best < count)
               then <[nightId := withVoteCount submission]> acc
               else acc
           end)
        ∅ allSubmissions.

(** The list that [fetchPastWinners] puts in [pastWinners]. *)
Definition fetchPastWinners (allSubmissions : list SubmissionWithDetails)
  : list SubmissionWithDetails :=
  (merge_sort night_le (map_to_list (pastWinnersByNight allSubmissions))).*2.

End Tally.

(** ** The phase schedule *)

Module Schedule.

Inductive Phase := submission | voting | winner.

Global Instance Phase_eq_dec : EqDecision Phase.
Proof. solve_decision. Defined.

(** [Date.prototype.getDay] on a local time value in milliseconds: the day
    number is the floor of the time over a day, day 0 was a Thursday, and
    Sunday is 0. *)
Definition msPerDay : Z := 86400000.

Definition getDay (localTime : Z) : Z :=
  ((localTime `div` msPerDay + 4) `mod` 7)%Z.

(** The part of the state of [App] that the schedule reads and writes. *)
Record AppState := mkAppState {
  currentPhase : Phase;
  isAdminMode : bool
}.

Definition setCurrentPhase (p : Phase) (st : AppState) : AppState :=
  {| currentPhase := p; isAdminMode := isAdminMode st |}.

Definition determineCurrentPhase (today : Z) (st : AppState) : AppState :=
  let dayOfWeek := getDay today in
  if decide (dayOfWeek = 4)%Z then setCurrentPhase winner st
  else if decide (2 ≤ dayOfWeek)%Z then setCurrentPhase voting st
  else setCurrentPhase submission st.

(** The effect of [App]: [if (!isAdminMode) determineCurrentPhase()]. *)
Definition phaseEffect (today : Z) (st : AppState) : AppState :=
  if isAdminMode st then st else determineCurrentPhase today st.

(** [handlePhaseChange], as far as the phase goes: the administrator's
    choice replaces the phase. *)
Definition handlePhaseChange (newPhase : Phase) (st : AppState) : AppState :=
  setCurrentPhase newPhase st.

(** [Date] arithmetic on local time values, the values [getDay] reads.
    [Day] is the day number of a time; [d.setDate(d.getDate() + k)] moves the day number by [k] (a date
    past the end of a month rolls over) and keeps the time within the day;
    [d.setHours(h, m, s, ms)] keeps the day and replaces the time within it. *)
Definition Day (t : Z) : Z := (t `div` msPerDay)%Z.

Definition addDays (t k : Z) : Z := (t + k * msPerDay)%Z.

Definition setHours (t hours minutes seconds ms : Z) : Z :=
  (Day t * msPerDay + hours * 3600000 + minutes * 60000 + seconds * 1000 + ms)%Z.

(** [getNextPhaseTime], with [now] the local time of the call. *)
Definition getNextPhaseTime (currentPhase : Phase) (now : Z) : Z :=
  let thursday := setHours (addDays now (4 - getDay now)) 17 0 0 0 in
  let tuesday := setHours (addDays now (2 - getDay now)) 23 59 0 0 in
  let friday := setHours (addDays now (5 - getDay now)) 8 0 0 0 in
  match currentPhase with
  | submission => tuesday
  | voting => thursday
  | winner => friday
  end.

(** The phase that [determineCurrentPhase] computes at a time. *)
Definition scheduledPhase (today : Z) : Phase :=
  currentPhase (determineCurrentPhase today (mkAppState submission false)).

(** The time within the day, in milliseconds. *)
Definition TimeWithinDay (t : Z) : Z := (t `mod` msPerDay)%Z.

(** A state without override, and a Thursday: the first day of 1970. *)
Definition participant : AppState := mkAppState submission false.
Definition thursday : Z := 0.

End Schedule.

(** ** The ledger of submissions and votes *)

Module Ledger.

(** The tables, as the handlers write them: a row is the payload of an
    insert; the key and the timestamp that the database adds are not
    modelled. *)
Module movie_nights.
Record Insert := mkInsert {
  night_id : nat;
  date : Z;
  movie_id : option nat
}.
End movie_nights.

Module submissions.
Record Insert := mkInsert {
  night_id : nat;
  user_id : nat;
  movie_id : nat
}.

Global Instance Insert_eq_dec : EqDecision Insert.
Proof. solve_decision. Defined.
End submissions.

Module votes.
Record Insert := mkInsert {
  submission_id : nat;
  user_id : nat;
  rank : nat
}.
End votes.

(** Modelled from the spec: the relational store behind the Supabase client
    (section 6, Store): tables are lists of rows, an insert appends rows, a
    delete removes the rows that match its filters. *)
Record Store := mkStore {
  movie_nights_table : list movie_nights.Insert;
  submissions_table : list submissions.Insert;
  votes_table : list votes.Insert
}.

(** Every request answers with data or with an error; [Faults] says which
    requests of a handler fail, and the message that the error object of the
    request carries. *)
Record Faults := mkFaults {
  select_night_error : option string;
  insert_night_error : option string;
  insert_submission_error : option string;
  delete_votes_error : option string;
  insert_votes_error : option string
}.

Definition no_faults : Faults := mkFaults None None None None None.

(** What a [catch] receives: an [Error] made by [new Error(message)], or the
    error object of a failed request, which is a plain object and not an
    [Error]. *)
Inductive Thrown :=
  | ErrorInstance (message : string)
  | RequestError (message : string).

(** [err instanceof Error ? err.message : 'An error occurred'] *)
Definition shownMessage (err : Thrown) : string :=
  match err with
  | ErrorInstance message => message
  | RequestError _ => "An error occurred"
  end.

Record User := mkUser { user_id : nat; name : string }.

Record MovieResult := mkMovieResult { id : nat; title : string }.

(** The state of [App] that the two handlers read and write. *)
Record AppState := mkAppState {
  currentUser : option User;
  selectedMovie : option MovieResult;
  submissions : list Tally.SubmissionWithDetails;
  userVotes : list Tally.SubmissionWithDetails;
  movieTitle : string;
  searchResults : list MovieResult;
  error : option string
}.

Definition setError (e : option string) (st : AppState) : AppState :=
  {| currentUser := currentUser st; selectedMovie := selectedMovie st;
     submissions := submissions st; userVotes := userVotes st;
     movieTitle := movieTitle st; searchResults := searchResults st;
     error := e |}.

(** [setMovieTitle(''); setSelectedMovie(null); setSearchResults([])] *)
Definition clearSelection (st : AppState) : AppState :=
  {| currentUser := currentUser st; selectedMovie := None;
     submissions := submissions st; userVotes := userVotes st;
     movieTitle := ""; searchResults := [];
     error := error st |}.

Definition MAX_SUBMISSIONS : nat := 2.

(** [getCurrentMovieNight]: the weeks since 2023-01-18, rounded up, and at
    least 1.  Times are in milliseconds. *)
Definition startDate : Z := 1674000000000.
Definition msPerWeek : Z := (7 * 24 * 60 * 60 * 1000)%Z.

Definition getCurrentMovieNight (now : Z) : nat :=
  let timeDiff := (now - startDate)%Z in
  let weeksDiff := (- ((- timeDiff) `div` msPerWeek))%Z in
  Z.to_nat (Z.max 1 weeksDiff).

(** [ensureMovieNightExists]: look the night up and create it when absent.
    The boolean is the value returned. *)
Definition ensureMovieNightExists (now : Z) (faults : Faults) (nightId : nat)
    (st : AppState) (db : Store) : bool * AppState * Store :=
  match select_night_error faults with
  | Some msg => (false, setError (Some (shownMessage (RequestError msg))) st, db)
  | None =>
      let data :=
        filter (λ r, movie_nights.night_id r = nightId) (movie_nights_table db) in
      if decide (length data = 0) then
        match insert_night_error faults with
        | Some msg =>
            (false, setError (Some (shownMessage (RequestError msg))) st, db)
        | None =>
            (true, st,
             {| movie_nights_table :=
                  movie_nights_table db ++ [movie_nights.mkInsert nightId now None];
                submissions_table := submissions_table db;
                votes_table := votes_table db |})
        end
      else (true, st, db)
  end.

Definition quota_message : string :=
  "You can only submit " +:+ pretty MAX_SUBMISSIONS +:+ " movies per movie night".

(** [handleSubmitMovie] *)
Definition handleSubmitMovie (now : Z) (faults : Faults)
    (st : AppState) (db : Store) : AppState * Store :=
  match selectedMovie st, currentUser st with
  | Some movie, Some user =>
      let userSubmissions :=
        filter (λ s, Tally.user_id s = user_id user) (submissions st) in
      if decide (MAX_SUBMISSIONS ≤ length userSubmissions) then
        (setError (Some quota_message) st, db)
      else
        let nightId := getCurrentMovieNight now in
        match ensureMovieNightExists now faults nightId st db with
        | (false, st', db') =>
            (setError
               (Some (shownMessage (ErrorInstance "Failed to create movie night")))
               st', db')
        | (true, st', db') =>
            match insert_submission_error faults with
            | Some msg =>
                (setError (Some (shownMessage (RequestError msg))) st', db')
            | None =>
                (clearSelection st',
                 {| movie_nights_table := movie_nights_table db';
                    submissions_table :=
                      submissions_table db'
                      ++ [submissions.mkInsert nightId (user_id user) (id movie)];
                    votes_table := votes_table db' |})
            end
        end
  | _, _ => (st, db)
  end.

(** The rows that [handleSubmitVotes] inserts:
    [userVotes.map((submission, index) => ({ submission_id, user_id,
    rank: index + 1 }))]. *)
Definition voteRows (user : User) (userVotes : list Tally.SubmissionWithDetails)
  : list votes.Insert :=
  imap (λ index submission,
          votes.mkInsert (Tally.submission_id submission) (user_id user) (index + 1))
       userVotes.

(** [handleSubmitVotes] *)
Definition handleSubmitVotes (faults : Faults)
    (st : AppState) (db : Store) : AppState * Store :=
  match currentUser st with
  | None => (st, db)
  | Some user =>
      match delete_votes_error faults with
      | Some msg => (setError (Some (shownMessage (RequestError msg))) st, db)
      | None =>
          let listed := Tally.submission_id <$> userVotes st in
          let kept :=
            filter (λ v, ¬ (votes.user_id v = user_id user ∧
                            votes.submission_id v ∈ listed))
                   (votes_table db) in
          let db1 := {| movie_nights_table := movie_nights_table db;
                        submissions_table := submissions_table db;
                        votes_table := kept |} in
          match insert_votes_error faults with
          | Some msg =>
              (setError (Some (shownMessage (RequestError msg))) st, db1)
          | None =>
              (st, {| movie_nights_table := movie_nights_table db;
                      submissions_table := submissions_table db;
                      votes_table := kept ++ voteRows user (userVotes st) |})
          end
      end
  end.

(** [voteA?.rank || 0] with [voteA = data.find(v => v.submission_id ===
    a.submission_id)]. *)
Definition rankIn (data : list votes.Insert) (a : Tally.SubmissionWithDetails) : nat :=
  match list_find (λ v, votes.submission_id v = Tally.submission_id a) data with
  | Some (_, voteA) => votes.rank voteA
  | None => 0
  end.

(** [Array.prototype.sort] with the comparator [(a, b) => key a - key b]: the
    sort is stable, so the result is the arrangement by ascending key in
    which elements of equal key keep their order. *)
Fixpoint insert_by {A} (key : A → nat) (x : A) (l : list A) : list A :=
  match l with
  | [] => [x]
  | y :: l' =>
      if decide (key x ≤ key y) then x :: y :: l' else y :: insert_by key x l'
  end.

Definition sort_by {A} (key : A → nat) (l : list A) : list A :=
  foldr (insert_by key) [] l.

(** The rows that the query of [checkUserVotes] returns: the votes of the
    user, for submissions of the night, among the given ids.  The key of a
    submission row is not part of the rows of the store, so the join with
    [submissions] is given by [nightOf], the night of each submission id. *)
Definition selectUserVotes (nightOf : nat → option nat) (userId nightId : nat)
    (ids : list nat) (db : Store) : list votes.Insert :=
  filter (λ v, votes.user_id v = userId ∧
               nightOf (votes.submission_id v) = Some nightId ∧
               votes.submission_id v ∈ ids)
         (votes_table db).

Definition setUserVotes (l : list Tally.SubmissionWithDetails) (st : AppState)
  : AppState :=
  {| currentUser := currentUser st; selectedMovie := selectedMovie st;
     submissions := submissions st; userVotes := l;
     movieTitle := movieTitle st; searchResults := searchResults st;
     error := error st |}.

(** [checkUserVotes]: the state and the value of [hasVoted] it leaves.  A
    failed query is only logged. *)
Definition checkUserVotes (select_votes_error : option string)
    (nightOf : nat → option nat) (userId nightId : nat)
    (hasVoted : bool) (st : AppState) (db : Store) : bool * AppState :=
  match select_votes_error with
  | Some _ => (hasVoted, st)
  | None =>
      let data :=
        selectUserVotes nightOf userId nightId
                        (Tally.submission_id <$> submissions st) db in
      if decide (0 < length data) then
        (true, setUserVotes (sort_by (rankIn data) (submissions st)) st)
      else (false, st)
  end.

(** *** Notions used to state the properties *)

(** The votes that [handleSubmitVotes] keeps: all but those of the user for
    the listed candidates. *)
Definition keptVotes (user : User) (listed : list nat) (table : list votes.Insert)
  : list votes.Insert :=
  filter (λ v, ¬ (votes.user_id v = user_id user ∧ votes.submission_id v ∈ listed))
         table.

(** The rows of a night in [movie_nights]. *)
Definition nightRows (nightId : nat) (db : Store) : list movie_nights.Insert :=
  filter (λ r, movie_nights.night_id r = nightId) (movie_nights_table db).

(** What a fetched submission says about its row. *)
Definition row_of (s : Tally.SubmissionWithDetails) : submissions.Insert :=
  submissions.mkInsert (Tally.night_id s) (Tally.user_id s) (Tally.movie_id s).

(** The list that [fetchSubmissions] leaves in the state: the rows of the
    night, in some order. *)
Definition fetched (nightId : nat) (db : Store)
    (l : list Tally.SubmissionWithDetails) : Prop :=
  row_of <$> l
  ≡ₚ filter (λ r, submissions.night_id r = nightId) (submissions_table db).

(** The number of submissions of a user in a night. *)
Definition owned (userId nightId : nat) (db : Store) : nat :=
  length (filter (λ r, submissions.user_id r = userId ∧
                       submissions.night_id r = nightId)
                 (submissions_table db)).

(** *** Some inputs *)

Definition alice : User := mkUser 7 "alice".
Definition matrix : MovieResult := mkMovieResult 603 "The Matrix".

(** A time in the 43rd week after the start date. *)
Definition now0 : Z := 1700000000000.

Definition submitted (id userId movieId : nat) : Tally.SubmissionWithDetails :=
  Tally.mkSubmission id 43 userId movieId [] 0.

(** Alice has submitted two movies for night 43, Bob (8) one. *)
Definition full_store : Store :=
  mkStore [movie_nights.mkInsert 43 1699900000000 None]
          [submissions.mkInsert 43 7 11; submissions.mkInsert 43 8 12;
           submissions.mkInsert 43 7 13;
           submissions.mkInsert 42 7 14]
          [votes.mkInsert 1 7 2; votes.mkInsert 2 7 1; votes.mkInsert 1 8 1].

Definition full_state : AppState :=
  mkAppState (Some alice) (Some matrix)
             [submitted 3 7 13; submitted 2 8 12; submitted 1 7 11]
             [submitted 3 7 13; submitted 2 8 12; submitted 1 7 11]
             "matrix" [matrix] None.

(** Bob has submitted one movie for the night. *)
Definition bob : User := mkUser 8 "bob".

Definition bob_state : AppState :=
  mkAppState (Some bob) (Some matrix)
             [submitted 3 7 13; submitted 2 8 12; submitted 1 7 11]
             [submitted 3 7 13; submitted 2 8 12; submitted 1 7 11]
             "matrix" [matrix] None.

(** The list of the state is empty although the store holds submissions. *)
Definition stale_state : AppState :=
  mkAppState (Some alice) (Some matrix) []
             [submitted 3 7 13; submitted 2 8 12; submitted 1 7 11]
             "matrix" [matrix] None.

(** Alice has arranged the three movies in another order than fetched. *)
Definition reordered_state : AppState :=
  mkAppState (Some alice) (Some matrix)
             [submitted 3 7 13; submitted 2 8 12; submitted 1 7 11]
             [submitted 2 8 12; submitted 3 7 13; submitted 1 7 11]
             "matrix" [matrix] None.

(** The list of the state was fetched before the second submission of Alice
    reached the store. *)
Definition behind_state : AppState :=
  mkAppState (Some alice) (Some matrix)
             [submitted 2 8 12; submitted 1 7 11]
             [submitted 2 8 12; submitted 1 7 11]
             "matrix" [matrix] None.

(** Alice has voted on the three movies of night 43. *)
Definition voted_store : Store :=
  mkStore [movie_nights.mkInsert 43 1699900000000 None]
          [submissions.mkInsert 43 7 11; submissions.mkInsert 43 8 12;
           submissions.mkInsert 43 7 13]
          [votes.mkInsert 3 7 1; votes.mkInsert 1 7 2; votes.mkInsert 2 7 3;
           votes.mkInsert 1 8 1].

(** The night has three movies; the ranking of Alice in the state lists two
    of them, as set before the third was fetched. *)
Definition partial_state : AppState :=
  mkAppState (Some alice) None
             [submitted 3 7 13; submitted 2 8 12; submitted 1 7 11]
             [submitted 1 7 11; submitted 2 8 12]
             "" [] None.

(** The insert of votes fails. *)
Definition insert_votes_fails : Faults :=
  mkFaults None None None None (Some "insert failed").

End Ledger.

(** ** The first version of the application *)

Module FirstApp.

(** [SubmissionWithDetails] of the first [App]: a movie is a title and a vote
    carries no rank. *)
Record SubmissionWithDetails := mkSubmission {
  submission_id : nat;
  night_id : nat;
  user_id : nat;
  movie_title : string;
  votes : list nat;
  voteCount : nat
}.

(** [{ ...submission, voteCount: submission.votes?.length || 0 }] *)
Definition withVoteCount (submission : SubmissionWithDetails) : SubmissionWithDetails :=
  {| submission_id := submission_id submission;
     night_id := night_id submission;
     user_id := user_id submission;
     movie_title := movie_title submission;
     votes := votes submission;
     voteCount := length (votes submission) |}.

(** [submissionsWithDetails.reduce((prev, current) => (current.voteCount >
    prev.voteCount) ? current : prev)]: without an initial value the reduce
    starts from the first element, and throws on an empty array ([None]). *)
Definition winningSubmission (data : list SubmissionWithDetails)
  : option SubmissionWithDetails :=
  match withVoteCount <$> data with
  | [] => None
  | first :: rest =>
      Some (foldl (λ prev current,
                     if decide (voteCount prev < voteCount current)
                     then current else prev)
                  first rest)
  end.

End FirstApp.

(** * Properties *)

(** Closed facts about given inputs are decided by evaluation. *)
Ltac by_evaluation := apply (bool_decide_unpack _); vm_compute; exact I.

(** ** Lists *)

Lemma list_find_ext_elem {A} (P Q : A → Prop)
    `{!∀ x, Decision (P x), !∀ x, Decision (Q x)} (l : list A) :
  (∀ x, x ∈ l → P x ↔ Q x) → list_find P l = list_find Q l.
Proof.
  induction l as [|x l IH]; intros Hext; [done|]. csimpl.
  assert (P x ↔ Q x) as Hx by (apply Hext; left).
  rewrite IH by (intros y Hy; apply Hext; by right).
  destruct (decide (P x)), (decide (Q x)); naive_solver.
Qed.

Lemma filter_all {A} (P : A → Prop) `{!∀ x, Decision (P x)} (l : list A) :
  (∀ x, x ∈ l → P x) → filter P l = l.
Proof.
  induction l as [|x l IH]; intros Hall; [done|].
  rewrite filter_cons_True by (apply Hall; left).
  f_equal. apply IH. intros y Hy. apply Hall. by right.
Qed.

(** Two positions of a list weigh no more than the whole list. *)
Lemma sum_list_two {A} (f : A → nat) (l : list A) i j a b :
  i ≠ j → l !! i = Some a → l !! j = Some b → f a + f b ≤ sum_list (f <$> l).
Proof.
  revert i j. induction l as [|x l IH]; intros i j Hij Hi Hj; [done|].
  assert (∀ k y, l !! k = Some y → f y ≤ sum_list (f <$> l)) as Hin.
  { intros k y Hk. apply (list_elem_of_lookup_2 l k), (list_elem_of_fmap_2 f) in Hk.
    clear -Hk. induction Hk; simpl; lia. }
  rewrite fmap_cons. change (sum_list (f x :: (f <$> l))) with (f x + sum_list (f <$> l)).
  destruct i as [|i], j as [|j]; simpl in *; [done | | |].
  - injection Hi as ->. specialize (Hin _ _ Hj). lia.
  - injection Hj as ->. specialize (Hin _ _ Hi). lia.
  - assert (i ≠ j) as Hne by congruence.
    pose proof (IH i j Hne Hi Hj). lia.
Qed.

Lemma filter_ext_elem {A} (P Q : A → Prop)
    `{!∀ x, Decision (P x), !∀ x, Decision (Q x)} (l : list A) :
  (∀ x, x ∈ l → P x ↔ Q x) → filter P l = filter Q l.
Proof.
  induction l as [|x l IH]; intros Hext; [done|].
  assert (P x ↔ Q x) as Hx by (apply Hext; left).
  rewrite !filter_cons, IH by (intros y Hy; apply Hext; by right).
  destruct (decide (P x)), (decide (Q x)); naive_solver.
Qed.

(** The first of the least elements of a list is at one place only. *)
Lemma first_least_unique {A} (f : A → nat) (l1 l2 k1 k2 : list A) (x y : A) :
  l1 ++ x :: l2 = k1 ++ y :: k2 →
  f x ≤ f y → f y ≤ f x →
  (∀ s, s ∈ l1 → f x < f s) →
  (∀ s, s ∈ k1 → f y < f s) →
  l1 = k1 ∧ x = y ∧ l2 = k2.
Proof.
  intros Heq Hxy Hyx Hl1 Hk1.
  assert (length l1 = length k1) as Hlen.
  { destruct (Nat.lt_trichotomy (length l1) (length k1)) as [Hlt|[?|Hlt]]; [|done|].
    - assert (k1 !! length l1 = Some x) as Hx.
      { rewrite <-(lookup_app_l k1 (y :: k2)), <-Heq by done.
        by apply list_lookup_middle. }
      apply list_elem_of_lookup_2, Hk1 in Hx. lia.
    - assert (l1 !! length k1 = Some y) as Hy.
      { rewrite <-(lookup_app_l l1 (x :: l2)), Heq by done.
        by apply list_lookup_middle. }
      apply list_elem_of_lookup_2, Hl1 in Hy. lia. }
  apply app_inj_1 in Heq as [-> Heq]; [|done]. by simplify_eq.
Qed.

Lemma elem_of_snoc_iff {A} (l : list A) (x y : A) : x ∈ l ++ [y] ↔ x ∈ l ∨ x = y.
Proof. by rewrite elem_of_app, list_elem_of_singleton. Qed.

(** The reduce that keeps the current element when it is strictly greater:
    its result is the first of the greatest elements. *)
Lemma foldl_first_greatest {A} (key : A → nat) (first : A) (rest : list A) :
  ∃ i,
    (first :: rest) !! i
    = Some (foldl (λ prev current,
                     if decide (key prev < key current) then current else prev)
                  first rest) ∧
    (∀ x, x ∈ first :: rest →
       key x ≤ key (foldl (λ prev current,
                             if decide (key prev < key current) then current else prev)
                          first rest)) ∧
    (∀ j x, (first :: rest) !! j = Some x → j < i →
       key x < key (foldl (λ prev current,
                             if decide (key prev < key current) then current else prev)
                          first rest)).
Proof.
  induction rest as [|y rest IH] using rev_ind.
  - exists 0. simpl. split_and!; [done | | intros; lia].
    by intros x ->%list_elem_of_singleton.
  - destruct IH as (i & Hi & Hmax & Hfirst). rewrite foldl_app. simpl.
    set (best := foldl _ first rest) in *.
    assert (i < length (first :: rest)) as Hlt by (by eapply lookup_lt_Some).
    case_decide as Hy.
    + exists (length (first :: rest)). rewrite app_comm_cons. split_and!.
      * by apply list_lookup_middle.
      * intros x [Hx| ->]%elem_of_snoc_iff; [|done].
        specialize (Hmax x Hx). lia.
      * intros j x Hj Hjlt. rewrite lookup_app_l in Hj by done.
        apply list_elem_of_lookup_2 in Hj. specialize (Hmax x Hj). lia.
    + exists i. rewrite app_comm_cons. split_and!.
      * by rewrite lookup_app_l.
      * intros x [Hx| ->]%elem_of_snoc_iff; [by apply Hmax | lia].
      * intros j x Hj Hjlt. rewrite lookup_app_l in Hj by lia. by eapply Hfirst.
Qed.

Lemma filter_none {A} (P : A → Prop) `{!∀ x, Decision (P x)} (l : list A) :
  (∀ x, x ∈ l → ¬ P x) → filter P l = [].
Proof.
  induction l as [|x l IH]; intros Hnone; [done|].
  rewrite filter_cons_False by (apply Hnone; left).
  apply IH. intros y Hy. apply Hnone. by right.
Qed.

(** ** The tally *)

Module TallyProofs.
Import Tally.

(** *** The [Map] of counts *)

Lemma Map_get_set k v m k' :
  Map_get k' (Map_set k v m) = if decide (k = k') then Some v else Map_get k' m.
Proof.
  induction m as [|[k0 v0] m IH]; simpl.
  - repeat case_decide; congruence.
  - repeat (case_decide; simpl); try congruence.
Qed.

Lemma Map_set_fresh k v m : k ∉ m.*1 → Map_set k v m = m ++ [(k, v)].
Proof.
  induction m as [|[k0 v0] m IH]; simpl; intros Hk; [done|].
  apply not_elem_of_cons in Hk as [Hne Hk].
  case_decide; [congruence|]. by rewrite IH.
Qed.

Lemma Map_set_keys k v m k' : k' ∈ (Map_set k v m).*1 ↔ k' = k ∨ k' ∈ m.*1.
Proof.
  induction m as [|[k0 v0] m IH]; simpl.
  - set_solver.
  - case_decide; simpl; set_solver.
Qed.

Lemma Map_get_Some_elem k c m : Map_get k m = Some c → (k, c) ∈ m.
Proof.
  induction m as [|[k0 v0] m IH]; simpl; [done|].
  case_decide; intros; simplify_eq; [left | right; auto].
Qed.

Lemma Map_get_is_Some k m : k ∈ m.*1 → is_Some (Map_get k m).
Proof.
  induction m as [|[k0 v0] m IH]; simpl; [by intros ?%elem_of_nil|].
  case_decide; [eauto|]. intros [?|?]%elem_of_cons; [congruence | auto].
Qed.

Lemma Map_get_NoDup k c m : NoDup m.*1 → (k, c) ∈ m → Map_get k m = Some c.
Proof.
  induction m as [|[k0 v0] m IH]; simpl; [by intros _ ?%elem_of_nil|].
  intros [Hk0 Hnd]%NoDup_cons [Heq|Hin]%elem_of_cons.
  - simplify_eq. by rewrite decide_True.
  - case_decide; [|auto]. subst k0. destruct Hk0.
    by apply (list_elem_of_fmap_2 fst) in Hin.
Qed.

Lemma countVotes_acc_get o h remaining acc k :
  Map_get k
    (foldl (λ voteCounts s,
              Map_set (submission_id s) (count_for o h (submission_id s)) voteCounts)
           acc remaining)
  = if decide (k ∈ submission_id <$> remaining) then Some (count_for o h k)
    else Map_get k acc.
Proof.
  revert acc. induction remaining as [|s remaining IH]; intros acc; simpl.
  - destruct (decide (k ∈ [])) as [Hk|]; [by apply elem_of_nil in Hk | done].
  - rewrite IH, Map_get_set.
    repeat case_decide; subst; try done; set_solver.
Qed.

Lemma countVotes_acc_keys o h remaining acc k :
  k ∈ (foldl (λ voteCounts s,
                Map_set (submission_id s) (count_for o h (submission_id s)) voteCounts)
             acc remaining).*1
  ↔ k ∈ acc.*1 ∨ k ∈ submission_id <$> remaining.
Proof.
  revert acc. induction remaining as [|s remaining IH]; intros acc; simpl.
  - set_solver.
  - rewrite IH, Map_set_keys. set_solver.
Qed.

Lemma countVotes_get o h remaining s :
  s ∈ remaining →
  Map_get (submission_id s) (countVotes o h remaining)
  = Some (count_for o h (submission_id s)).
Proof.
  intros Hs. unfold countVotes.
  rewrite (countVotes_acc_get o h remaining []).
  rewrite decide_True; [done | by apply list_elem_of_fmap_2].
Qed.

Lemma countVotes_keys o h remaining k :
  k ∈ (countVotes o h remaining).*1 ↔ k ∈ submission_id <$> remaining.
Proof.
  unfold countVotes. rewrite (countVotes_acc_keys o h remaining []). set_solver.
Qed.

Lemma countVotes_elem o h remaining k c :
  (k, c) ∈ countVotes o h remaining → c = count_for o h k.
Proof.
  unfold countVotes.
  assert (∀ acc, (∀ k c, (k, c) ∈ acc → c = count_for o h k) →
    (k, c) ∈ foldl (λ voteCounts s,
        Map_set (submission_id s) (count_for o h (submission_id s)) voteCounts)
        acc remaining → c = count_for o h k) as H.
  { induction remaining as [|s remaining IH]; intros acc Hacc; simpl; [by apply Hacc|].
    apply IH. clear -Hacc. intros k c.
    induction acc as [|[k0 v0] acc IHacc]; simpl.
    - intros ?%list_elem_of_singleton. by simplify_eq.
    - case_decide; intros [?|?]%elem_of_cons; simplify_eq; try done.
      + apply Hacc. by right.
      + apply Hacc. by left.
      + apply IHacc; [|done]. intros ???. apply Hacc. by right. }
  apply H. by intros ?? ?%elem_of_nil.
Qed.

Lemma countVotes_nil_iff o h remaining : countVotes o h remaining = [] ↔ remaining = [].
Proof.
  split; [|by intros ->].
  destruct remaining as [|s remaining]; [done|]. intros Hnil.
  assert (submission_id s ∈ (countVotes o h (s :: remaining)).*1) as Hin
    by (apply countVotes_keys; left).
  rewrite Hnil in Hin. by apply elem_of_nil in Hin.
Qed.

(** With distinct ids the [Map] lists the remaining submissions in order. *)
Lemma countVotes_NoDup o h remaining :
  NoDup (submission_id <$> remaining) →
  countVotes o h remaining
  = (λ s, (submission_id s, count_for o h (submission_id s))) <$> remaining.
Proof.
  unfold countVotes.
  assert (∀ acc, NoDup (acc.*1 ++ (submission_id <$> remaining)) →
    foldl (λ voteCounts s,
        Map_set (submission_id s) (count_for o h (submission_id s)) voteCounts)
        acc remaining
    = acc ++ ((λ s, (submission_id s, count_for o h (submission_id s))) <$> remaining))
    as H.
  { induction remaining as [|s remaining IH]; intros acc Hnd; simpl.
    - by rewrite app_nil_r.
    - rewrite Map_set_fresh.
      + rewrite IH; [by rewrite <-app_assoc|].
        rewrite fmap_app; simpl. by rewrite <-app_assoc.
      + apply NoDup_app in Hnd as (_ & Hd & _). intros Hin.
        apply (Hd _ Hin). left. }
  intros Hnd. by rewrite H.
Qed.

Lemma totalVotes_sum voteCounts : totalVotes voteCounts = sum_list (voteCounts.*2).
Proof.
  unfold totalVotes.
  assert (∀ l a, foldl (λ sum count, sum + count) a l = a + sum_list l) as H.
  { induction l as [|x l IH]; intros a; simpl; [lia|]. rewrite IH. lia. }
  by rewrite H.
Qed.

(** *** The minimum and the loser *)

Lemma foldl_min_spec vs v :
  foldl Nat.min v vs ∈ v :: vs ∧ ∀ x, x ∈ v :: vs → foldl Nat.min v vs ≤ x.
Proof.
  revert v. induction vs as [|w vs IH]; intros v; simpl.
  - split; [left|]. intros x ->%list_elem_of_singleton. done.
  - destruct (IH (v `min` w)) as [Hin Hle]. split.
    + apply elem_of_cons in Hin as [Heq|Hin]; [|by do 2 right].
      rewrite Heq. destruct (Nat.min_spec v w) as [[_ ->]|[_ ->]]; [left | right; left].
    + intros x Hx. apply elem_of_cons in Hx as [->|Hx].
      * etrans; [apply Hle; left | lia].
      * apply elem_of_cons in Hx as [->|Hx].
        -- etrans; [apply Hle; left | lia].
        -- apply Hle. by right.
Qed.

Lemma minVotes_spec values :
  values ≠ [] →
  ∃ m, minVotes values = Some m ∧ m ∈ values ∧ ∀ x, x ∈ values → m ≤ x.
Proof.
  destruct values as [|v vs]; [done|]. intros _.
  exists (foldl Nat.min v vs). split; [done|]. apply foldl_min_spec.
Qed.

(** On a [Map] that is not empty the loser exists: it is the first entry
    whose count is the least count. *)
Lemma losingSubmissionId_spec voteCounts :
  voteCounts ≠ [] →
  ∃ i id c,
    losingSubmissionId voteCounts = Some id ∧
    voteCounts !! i = Some (id, c) ∧
    (∀ e, e ∈ voteCounts → c ≤ e.2) ∧
    (∀ j e, voteCounts !! j = Some e → j < i → c < e.2).
Proof.
  intros Hne.
  destruct (minVotes_spec (voteCounts.*2)) as (m & Hm & Hin & Hle).
  { by destruct voteCounts. }
  apply list_elem_of_fmap in Hin as ([id c] & -> & Hin).
  destruct (list_find_elem_of (λ e : nat * nat, Some e.2 = minVotes (voteCounts.*2))
              voteCounts (id, c)) as [[i [id' c']] Hfind]; [done | by rewrite Hm |].
  exists i, id', c'. unfold losingSubmissionId. rewrite Hfind. split; [done|].
  apply list_find_Some in Hfind as (Hi & Hc & Hfirst).
  simpl in Hc. rewrite Hm in Hc. injection Hc as ->.
  split_and!; [done | |].
  - intros e He. apply Hle. by apply list_elem_of_fmap_2.
  - intros j e Hj Hlt.
    assert (c ≤ e.2) by (apply Hle, list_elem_of_fmap_2; by eapply list_elem_of_lookup_2).
    destruct (decide (e.2 = c)) as [Heq|]; [|lia].
    destruct (Hfirst j e Hj Hlt). by rewrite Hm, Heq.
Qed.

Lemma Map_set_NoDup k v m : NoDup m.*1 → NoDup (Map_set k v m).*1.
Proof.
  induction m as [|[k0 v0] m IH]; simpl; intros Hnd.
  - apply NoDup_singleton.
  - apply NoDup_cons in Hnd as [Hk0 Hnd].
    case_decide; simpl; apply NoDup_cons; [by subst|].
    split; [|auto]. rewrite Map_set_keys. intros [?|?]; [congruence | done].
Qed.

Lemma countVotes_keys_NoDup o h remaining : NoDup (countVotes o h remaining).*1.
Proof.
  unfold countVotes.
  assert (∀ acc, NoDup acc.*1 →
    NoDup (foldl (λ voteCounts s,
        Map_set (submission_id s) (firstChoiceVotes h (votes_of o (submission_id s)))
                voteCounts) acc remaining).*1) as H.
  { induction remaining as [|s remaining IH]; intros acc Hacc; simpl; [done|].
    by apply IH, Map_set_NoDup. }
  apply H, NoDup_nil_2.
Qed.

(** *** The object of vote arrays *)

Lemma votesBySubmission_acc_elem submissions (acc : gmap nat (list ref)) k vs :
  foldl (λ acc s, <[submission_id s := votes s]> acc) acc submissions !! k = Some vs →
  acc !! k = Some vs ∨ ∃ s, s ∈ submissions ∧ submission_id s = k ∧ votes s = vs.
Proof.
  revert acc. induction submissions as [|x submissions IH]; intros acc; simpl; [auto|].
  intros [Hacc|(s & Hs & Hk & Hvs)]%IH.
  - rewrite lookup_insert in Hacc. case_decide; simplify_eq; [|auto].
    right. exists x. split; [left | done].
  - right. exists s. split; [by right | done].
Qed.

Lemma votesBySubmission_acc_fresh submissions (acc : gmap nat (list ref)) k :
  k ∉ submission_id <$> submissions →
  foldl (λ acc s, <[submission_id s := votes s]> acc) acc submissions !! k = acc !! k.
Proof.
  revert acc. induction submissions as [|x submissions IH]; intros acc; simpl; [done|].
  intros [Hne Hk]%not_elem_of_cons. rewrite IH by done.
  by rewrite lookup_insert_ne.
Qed.

Lemma votesBySubmission_acc_lookup submissions (acc : gmap nat (list ref)) s :
  NoDup (submission_id <$> submissions) → s ∈ submissions →
  foldl (λ acc s, <[submission_id s := votes s]> acc) acc submissions
    !! submission_id s = Some (votes s).
Proof.
  revert acc. induction submissions as [|x submissions IH]; intros acc; simpl.
  - by intros _ ?%elem_of_nil.
  - intros [Hx Hnd]%NoDup_cons [->|Hs]%elem_of_cons; [|by apply IH].
    rewrite votesBySubmission_acc_fresh by done. apply lookup_insert_eq.
Qed.

Lemma votesBySubmission_lookup_elem submissions k vs :
  votesBySubmission submissions !! k = Some vs →
  ∃ s, s ∈ submissions ∧ submission_id s = k ∧ votes s = vs.
Proof.
  intros [Hempty|?]%votesBySubmission_acc_elem; [|done].
  by rewrite lookup_empty in Hempty.
Qed.

Lemma votesBySubmission_lookup_is_Some submissions s :
  s ∈ submissions → is_Some (votesBySubmission submissions !! submission_id s).
Proof.
  intros Hs%(list_elem_of_fmap_2 submission_id). revert Hs.
  unfold votesBySubmission. generalize (∅ : gmap nat (list ref)).
  generalize (submission_id s) as k. clear s.
  induction submissions as [|x submissions IH]; intros k acc; simpl.
  - by intros ?%elem_of_nil.
  - intros Hk.
    destruct (decide (k ∈ submission_id <$> submissions)) as [Hin|Hout]; [by apply IH|].
    apply elem_of_cons in Hk as [->|Hk]; [|done].
    rewrite votesBySubmission_acc_fresh by done. rewrite lookup_insert_eq. eauto.
Qed.

Lemma votesBySubmission_lookup submissions s :
  NoDup (submission_id <$> submissions) → s ∈ submissions →
  votesBySubmission submissions !! submission_id s = Some (votes s).
Proof. apply votesBySubmission_acc_lookup. Qed.

Lemma votesBySubmission_to_list submissions :
  NoDup (submission_id <$> submissions) →
  map_to_list (votesBySubmission submissions)
  ≡ₚ (λ s, (submission_id s, votes s)) <$> submissions.
Proof.
  unfold votesBySubmission.
  assert (∀ acc : gmap nat (list ref),
    NoDup (submission_id <$> submissions) →
    (∀ s, s ∈ submissions → acc !! submission_id s = None) →
    map_to_list (foldl (λ acc s, <[submission_id s := votes s]> acc) acc submissions)
    ≡ₚ map_to_list acc ++ ((λ s, (submission_id s, votes s)) <$> submissions)) as H.
  { induction submissions as [|x submissions IH]; intros acc Hnd Hacc; simpl.
    - by rewrite app_nil_r.
    - apply NoDup_cons in Hnd as [Hx Hnd]. rewrite IH; [|done|].
      + rewrite map_to_list_insert by (apply Hacc; left).
        by rewrite <-Permutation_middle.
      + intros s Hs. rewrite lookup_insert_ne; [apply Hacc; by right|].
        intros Heq. apply Hx. rewrite Heq. by apply list_elem_of_fmap_2. }
  intros Hnd. rewrite H; [by rewrite map_to_list_empty | done |].
  intros s _. apply lookup_empty.
Qed.

Lemma object_values_elem o vs :
  vs ∈ object_values o ↔ ∃ k, o !! k = Some vs.
Proof.
  unfold object_values. rewrite merge_sort_Permutation, list_elem_of_fmap. split.
  - intros ([k vs'] & -> & Hin). exists k. by apply elem_of_map_to_list.
  - intros [k Hk]. exists (k, vs). split; [done|]. by apply elem_of_map_to_list.
Qed.

Lemma object_values_votesBySubmission submissions :
  NoDup (submission_id <$> submissions) →
  object_values (votesBySubmission submissions) ≡ₚ votes <$> submissions.
Proof.
  intros Hnd. unfold object_values.
  rewrite merge_sort_Permutation, votesBySubmission_to_list by done.
  by rewrite <-list_fmap_compose.
Qed.

(** Every vote object stored in the object is reachable from the input. *)
Lemma object_ballots_elem submissions r :
  r ∈ mjoin (object_values (votesBySubmission submissions)) → r ∈ ballots submissions.
Proof.
  unfold ballots. rewrite !list_elem_of_join.
  intros (vs & Hr & [k Hk]%object_values_elem).
  apply votesBySubmission_lookup_elem in Hk as (s & Hs & _ & <-).
  exists (votes s). split; [done|]. by apply list_elem_of_fmap_2.
Qed.

Lemma object_ballots_Permutation submissions :
  NoDup (submission_id <$> submissions) →
  mjoin (object_values (votesBySubmission submissions)) ≡ₚ ballots submissions.
Proof. intros Hnd. unfold ballots. by rewrite object_values_votesBySubmission. Qed.

Lemma votes_of_elem submissions id r :
  r ∈ votes_of (votesBySubmission submissions) id →
  r ∈ mjoin (object_values (votesBySubmission submissions)).
Proof.
  unfold votes_of. destruct (_ !! id) as [vs|] eqn:Hvs; simpl.
  - intros Hr. apply list_elem_of_join. exists vs. split; [done|].
    apply object_values_elem. eauto.
  - by intros ?%elem_of_nil.
Qed.

(** *** Re-ranking *)

Lemma rerank_vote_lookup threshold h r r' :
  rerank_vote threshold h r r'
  = if decide (r' = r) then decrement_above threshold (h r') else h r'.
Proof.
  unfold rerank_vote, decrement_above.
  destruct (decide (r' = r)) as [->|Hne].
  - case_decide; [apply fn_lookup_insert | done].
  - case_decide; [by apply fn_lookup_insert_ne | done].
Qed.

Lemma rerank_flat threshold o h :
  rerank threshold o h
  = foldl (rerank_vote threshold) h (mjoin (object_values o)).
Proof.
  unfold rerank. generalize (object_values o) as l. intros l. revert h.
  induction l as [|vs l IH]; intros h; simpl; [done|].
  by rewrite foldl_app, IH.
Qed.

Section rerank_votes.
Variable threshold : nat.

Lemma rerank_votes_fresh vs h r :
  r ∉ vs → foldl (rerank_vote threshold) h vs r = h r.
Proof.
  revert h. induction vs as [|v vs IH]; intros h; simpl; [done|].
  intros [Hne Hr]%not_elem_of_cons. rewrite IH by done.
  rewrite rerank_vote_lookup. by rewrite decide_False.
Qed.

Lemma rerank_votes_once vs h r :
  NoDup vs → r ∈ vs →
  foldl (rerank_vote threshold) h vs r = decrement_above threshold (h r).
Proof.
  revert h. induction vs as [|v vs IH]; intros h; simpl.
  - by intros _ ?%elem_of_nil.
  - intros [Hv Hnd]%NoDup_cons Hr.
    destruct (decide (r = v)) as [->|Hne].
    + rewrite rerank_votes_fresh by done.
      rewrite rerank_vote_lookup. by rewrite decide_True.
    + apply elem_of_cons in Hr as [?|Hr]; [done|].
      rewrite IH by done. rewrite rerank_vote_lookup. by rewrite decide_False.
Qed.

Lemma decrement_above_le rank : (decrement_above threshold rank ≤ rank)%Z.
Proof. unfold decrement_above. case_decide; lia. Qed.

Lemma rerank_votes_le vs h r :
  (foldl (rerank_vote threshold) h vs r ≤ h r)%Z.
Proof.
  revert h. induction vs as [|v vs IH]; intros h; simpl; [done|].
  etrans; [apply IH|]. rewrite rerank_vote_lookup.
  case_decide; [apply decrement_above_le | done].
Qed.

Lemma rerank_votes_agree vs h1 h2 r :
  h1 r = h2 r →
  foldl (rerank_vote threshold) h1 vs r = foldl (rerank_vote threshold) h2 vs r.
Proof.
  revert h1 h2. induction vs as [|v vs IH]; intros h1 h2 Heq; simpl; [done|].
  apply IH. rewrite !rerank_vote_lookup. by rewrite Heq.
Qed.
End rerank_votes.

Lemma rerank_fresh threshold o h r :
  r ∉ mjoin (object_values o) → rerank threshold o h r = h r.
Proof. rewrite rerank_flat. apply rerank_votes_fresh. Qed.

Lemma rerank_le threshold o h r : (rerank threshold o h r ≤ h r)%Z.
Proof. rewrite rerank_flat. apply rerank_votes_le. Qed.

Lemma rerank_agree threshold o h1 h2 r :
  h1 r = h2 r → rerank threshold o h1 r = rerank threshold o h2 r.
Proof. rewrite !rerank_flat. apply rerank_votes_agree. Qed.

(** With distinct ids and no vote object reachable twice, every vote of
    every submission is visited exactly once. *)
Lemma rerank_votesBySubmission threshold submissions h r :
  NoDup (submission_id <$> submissions) →
  NoDup (ballots submissions) →
  rerank threshold (votesBySubmission submissions) h r
  = if decide (r ∈ ballots submissions) then decrement_above threshold (h r)
    else h r.
Proof.
  intros Hids Hrefs. rewrite rerank_flat.
  pose proof (object_ballots_Permutation submissions Hids) as Hperm.
  case_decide as Hr.
  - apply rerank_votes_once; by rewrite Hperm.
  - apply rerank_votes_fresh. by rewrite Hperm.
Qed.

(** *** One round *)

Lemma findWinner_Some voteCounts remaining w :
  findWinner voteCounts remaining = Some w ↔
  ∃ i, list_find (has_majority voteCounts (totalVotes voteCounts)) remaining
       = Some (i, w).
Proof.
  unfold findWinner. destruct (list_find _ _) as [[i x]|]; simpl; split.
  - intros [= ->]. eauto.
  - by intros [j [= _ ->]].
  - done.
  - by intros [j ?].
Qed.

Lemma findWinner_None voteCounts remaining :
  findWinner voteCounts remaining = None ↔
  Forall (λ s, ¬ has_majority voteCounts (totalVotes voteCounts) s) remaining.
Proof.
  unfold findWinner. rewrite fmap_None. apply list_find_None.
Qed.

Lemma findWinner_elem voteCounts remaining w :
  findWinner voteCounts remaining = Some w → w ∈ remaining.
Proof.
  intros [i (Hi & _)%list_find_Some]%findWinner_Some.
  by eapply list_elem_of_lookup_2.
Qed.

Lemma round_Winner o h remaining w :
  round o h remaining = Winner w ↔
  findWinner (countVotes o h remaining) remaining = Some w.
Proof.
  unfold round. destruct (findWinner _ _) as [w'|]; [naive_solver|].
  split; [|done]. destruct (losingSubmissionId _) as [id|]; [|done].
  case_decide; [done|]. by destruct (Map_get _ _).
Qed.

(** A round that finds no winner removes every submission that carries the
    id of the first entry with the least count, and re-ranks with that count
    unless the id is 0. *)
Lemma round_Eliminated o h remaining remaining' h' :
  remaining ≠ [] →
  round o h remaining = Eliminated remaining' h' →
  findWinner (countVotes o h remaining) remaining = None ∧
  ∃ i id c,
    countVotes o h remaining !! i = Some (id, c) ∧
    (∀ e, e ∈ countVotes o h remaining → c ≤ e.2) ∧
    (∀ j e, countVotes o h remaining !! j = Some e → j < i → c < e.2) ∧
    remaining' = filter (λ s, submission_id s ≠ id) remaining ∧
    h' = if decide (id = 0) then h else rerank c o h.
Proof.
  intros Hne. unfold round.
  destruct (findWinner _ _) as [w|]; [done|]. intros Hround. split; [done|].
  destruct (losingSubmissionId_spec (countVotes o h remaining))
    as (i & id & c & Hlosing & Hi & Hmin & Hfirst).
  { by rewrite countVotes_nil_iff. }
  rewrite Hlosing in Hround.
  assert (Map_get id (countVotes o h remaining) = Some c) as Hget.
  { apply Map_get_NoDup; [apply countVotes_keys_NoDup|].
    by eapply list_elem_of_lookup_2. }
  rewrite Hget in Hround.
  assert (filter (λ s, Some (submission_id s) ≠ Some id) remaining
          = filter (λ s, submission_id s ≠ id) remaining) as Hfilter.
  { apply list_filter_iff. intros s. naive_solver. }
  rewrite Hfilter in Hround.
  exists i, id, c. split_and!; [done | done | done | |];
    case_decide; by simplify_eq.
Qed.

Lemma round_shrinks o h remaining remaining' h' :
  remaining ≠ [] →
  round o h remaining = Eliminated remaining' h' →
  length remaining' < length remaining ∧ remaining' `sublist_of` remaining.
Proof.
  intros Hne Hround.
  destruct (round_Eliminated _ _ _ _ _ Hne Hround)
    as (_ & i & id & c & Hi & _ & _ & -> & _).
  split; [|apply sublist_filter].
  assert (id ∈ submission_id <$> remaining) as (s & Hid & Hs)%list_elem_of_fmap.
  { apply (countVotes_keys o h). apply list_elem_of_fmap. exists (id, c).
    split; [done|]. by eapply list_elem_of_lookup_2. }
  apply (length_filter_lt _ _ s); [done|]. naive_solver.
Qed.

(** *** The loop *)

Lemma runoff_total fuel o h remaining :
  length remaining ≤ fuel →
  ∃ winner rest hf n,
    runoff fuel o h remaining = Some (winner, rest, hf, n) ∧
    n ≤ length remaining ∧
    rest `sublist_of` remaining ∧
    ((winner = None ∧ rest = []) ∨ (∃ s, winner = Some s ∧ s ∈ remaining)).
Proof.
  revert h remaining. induction fuel as [|fuel IH]; intros h remaining Hlen.
  - destruct remaining; [|simpl in Hlen; lia].
    exists None, [], h, 0. simpl. split_and!; [done.. | by left].
  - destruct remaining as [|s0 remaining0] eqn:Hrem.
    { exists None, [], h, 0. simpl. split_and!; [done| lia |done | by left]. }
    rewrite <-Hrem in *. assert (remaining ≠ []) as Hne by (by rewrite Hrem).
    assert (runoff (S fuel) o h remaining =
      match round o h remaining with
      | Winner submission => Some (Some submission, remaining, h, 1)
      | Eliminated remaining' h' =>
          '(winner, rest, hf, n) ← runoff fuel o h' remaining';
          Some (winner, rest, hf, S n)
      end) as -> by (by rewrite Hrem).
    destruct (round o h remaining) as [w|remaining' h'] eqn:Hround.
    + exists (Some w), remaining, h, 1. split_and!; [done| rewrite Hrem; simpl; lia |done|].
      right. exists w. split; [done|].
      by apply round_Winner, findWinner_elem in Hround.
    + destruct (round_shrinks _ _ _ _ _ Hne Hround) as [Hlt Hsub].
      destruct (IH h' remaining') as (winner & rest & hf & n & Hrun & Hn & Hrest & Hw);
        [lia|].
      exists winner, rest, hf, (S n). rewrite Hrun. simpl.
      split_and!; [done | lia | by etrans |].
      destruct Hw as [?|(s & -> & Hs)]; [by left|].
      right. exists s. split; [done|]. by eapply elem_of_sublist.
Qed.

Lemma runoff_more_fuel fuel fuel' o h remaining x :
  runoff fuel o h remaining = Some x → fuel ≤ fuel' →
  runoff fuel' o h remaining = Some x.
Proof.
  revert fuel' h remaining x.
  induction fuel as [|fuel IH]; intros fuel' h remaining x Hrun Hle.
  - destruct remaining; [|done]. by destruct fuel'.
  - destruct remaining as [|s0 remaining0]; [by destruct fuel'|].
    destruct fuel' as [|fuel']; [lia|]. simpl in *.
    destruct (round o h (s0 :: remaining0)) as [w|remaining' h']; [done|].
    destruct (runoff fuel o h' remaining') as [y|] eqn:Hy; [|done].
    by rewrite (IH fuel' _ _ y Hy) by lia.
Qed.

(** *** Rounds over submissions with distinct ids

    [submission_id] is the key of the [submissions] table.  When the ids of
    the input are distinct, the counts the code keeps by id are the counts of
    the submissions themselves. *)

Section distinct_ids.
Variable submissions : list SubmissionWithDetails.
Variable h : heap.
Variable remaining : list SubmissionWithDetails.
Hypothesis Hids : NoDup (submission_id <$> submissions).
Hypothesis Hsub : remaining `sublist_of` submissions.

Let o := votesBySubmission submissions.

Lemma remaining_ids_NoDup : NoDup (submission_id <$> remaining).
Proof.
  apply (sublist_NoDup _ (submission_id <$> submissions)); [done|].
  by apply fmap_sublist.
Qed.

Lemma count_for_first_place s :
  s ∈ remaining → count_for o h (submission_id s) = first_place h s.
Proof.
  intros Hs. unfold count_for, votes_of, o.
  rewrite votesBySubmission_lookup; [done | done |].
  by eapply elem_of_sublist.
Qed.

Lemma countVotes_first_place :
  countVotes o h remaining
  = (λ s, (submission_id s, first_place h s)) <$> remaining.
Proof.
  rewrite countVotes_NoDup by apply remaining_ids_NoDup.
  apply list_fmap_ext. intros i s Hi. f_equal.
  apply count_for_first_place. by eapply list_elem_of_lookup_2.
Qed.

Lemma totalVotes_first_place :
  totalVotes (countVotes o h remaining) = total_first_place h remaining.
Proof.
  rewrite totalVotes_sum, countVotes_first_place.
  unfold total_first_place. by rewrite <-list_fmap_compose.
Qed.

Lemma has_majority_first_place s :
  s ∈ remaining →
  has_majority (countVotes o h remaining)
               (totalVotes (countVotes o h remaining)) s
  ↔ majority_in h remaining s.
Proof.
  intros Hs. unfold has_majority, majority_in.
  rewrite totalVotes_first_place, countVotes_get by done. simpl.
  by rewrite count_for_first_place.
Qed.

Lemma findWinner_first_place :
  findWinner (countVotes o h remaining) remaining
  = snd <$> list_find (majority_in h remaining) remaining.
Proof.
  unfold findWinner. f_equal. apply list_find_ext_elem.
  intros s Hs. by apply has_majority_first_place.
Qed.

(** The first submission with a strict majority wins the round. *)
Lemma round_first_place_Winner i w :
  list_find (majority_in h remaining) remaining = Some (i, w) →
  round o h remaining = Winner w.
Proof.
  intros Hfind. apply round_Winner.
  by rewrite findWinner_first_place, Hfind.
Qed.

(** Without a majority the round removes exactly the first submission
    whose count is the least one. *)
Lemma round_first_place_Eliminated :
  remaining ≠ [] →
  (∀ s, s ∈ remaining → ¬ majority_in h remaining s) →
  ∃ l1 x l2,
    remaining = l1 ++ x :: l2 ∧
    (∀ s, s ∈ remaining → first_place h x ≤ first_place h s) ∧
    (∀ s, s ∈ l1 → first_place h x < first_place h s) ∧
    round o h remaining
    = Eliminated (l1 ++ l2)
        (if decide (submission_id x = 0) then h
         else rerank (first_place h x) o h).
Proof.
  intros Hne Hnone.
  destruct (round o h remaining) as [w|remaining' h'] eqn:Hround.
  { apply round_Winner in Hround. rewrite findWinner_first_place in Hround.
    destruct (list_find _ _) as [[i w']|] eqn:Hfind; [|done].
    apply list_find_Some in Hfind as (Hi & Hmaj & _).
    destruct (Hnone w'); [by eapply list_elem_of_lookup_2 | done]. }
  destruct (round_Eliminated _ _ _ _ _ Hne Hround)
    as (_ & i & id & c & Hi & Hmin & Hfirst & -> & ->).
  rewrite countVotes_first_place in Hi, Hmin, Hfirst.
  apply list_lookup_fmap_Some in Hi as (x & [= -> ->] & Hx).
  pose proof (take_drop_middle _ _ _ Hx) as Hsplit.
  exists (take i remaining), x, (drop (S i) remaining).
  split_and!; [done | | |].
  - intros s Hs. apply (Hmin (submission_id s, first_place h s)).
    by apply (list_elem_of_fmap_2 (λ s, (submission_id s, first_place h s))).
  - intros s (j & Hj & Hlt)%elem_of_take.
    apply (Hfirst j (submission_id s, first_place h s)); [|done].
    by apply (list_lookup_fmap_Some_2 (λ s, (submission_id s, first_place h s))).
  - f_equal. pose proof remaining_ids_NoDup as Hnd.
    rewrite <-Hsplit in Hnd at 1. rewrite <-Hsplit at 1.
    rewrite fmap_app, fmap_cons in Hnd.
    apply NoDup_app in Hnd as (_ & Hl1 & [Hl2 _]%NoDup_cons).
    rewrite filter_app, filter_cons_False by naive_solver. f_equal.
    + apply filter_all. intros s Hs Heq.
      apply (Hl1 (submission_id s)); [by apply list_elem_of_fmap_2|].
      rewrite Heq. left.
    + apply filter_all. intros s Hs Heq.
      apply Hl2. rewrite <-Heq. by apply list_elem_of_fmap_2.
Qed.
End distinct_ids.

(** *** The whole tally *)

Lemma calculateInstantRunoffWinner_fuel_runoff fuel h submissions :
  submissions ≠ [] →
  calculateInstantRunoffWinner_fuel fuel h submissions
  = '(winner, remaining, hf, _) ←
      runoff fuel (votesBySubmission submissions) h submissions;
    Some (result_of winner remaining, hf).
Proof. by destruct submissions. Qed.

Lemma runoff_nil fuel o h : runoff fuel o h [] = Some (None, [], h, 0).
Proof. by destruct fuel. Qed.

Lemma runoff_step fuel o h remaining :
  remaining ≠ [] →
  runoff (S fuel) o h remaining
  = match round o h remaining with
    | Winner submission => Some (Some submission, remaining, h, 1)
    | Eliminated remaining' h' =>
        '(winner, rest, hf, n) ← runoff fuel o h' remaining';
        Some (winner, rest, hf, S n)
    end.
Proof. by destruct remaining. Qed.

(** A strict majority is held by one position only. *)
Lemma majority_in_unique h l i j a b :
  l !! i = Some a → l !! j = Some b →
  majority_in h l a → majority_in h l b → i = j.
Proof.
  unfold majority_in, total_first_place. intros Hi Hj Ha Hb.
  destruct (decide (i = j)) as [|Hne]; [done|].
  pose proof (sum_list_two (first_place h) l i j a b Hne Hi Hj). lia.
Qed.

(** *** Rounds and the store *)

Lemma firstChoiceVotes_agree h1 h2 vs :
  (∀ r, r ∈ vs → h1 r = h2 r) → firstChoiceVotes h1 vs = firstChoiceVotes h2 vs.
Proof.
  unfold firstChoiceVotes. induction vs as [|v vs IH]; intros Hagree; [done|].
  assert (h1 v = h2 v) as Hv by (apply Hagree; left).
  assert (length (filter (λ r, h1 r = 1%Z) vs) = length (filter (λ r, h2 r = 1%Z) vs))
    as IH' by (apply IH; intros r Hr; apply Hagree; by right).
  rewrite !filter_cons, Hv. case_decide; simpl; by rewrite IH'.
Qed.

Section agreeing_stores.
Variable submissions : list SubmissionWithDetails.
Let o := votesBySubmission submissions.

Lemma countVotes_agree h1 h2 remaining :
  agree submissions h1 h2 → countVotes o h1 remaining = countVotes o h2 remaining.
Proof.
  intros Hagree. unfold countVotes. generalize (@nil (nat * nat)) as acc.
  induction remaining as [|s remaining IH]; intros acc; simpl; [done|].
  rewrite IH. do 2 f_equal. apply firstChoiceVotes_agree.
  intros r Hr. by apply Hagree, object_ballots_elem, (votes_of_elem _ (submission_id s)).
Qed.

Lemma round_agree h1 h2 remaining :
  remaining ≠ [] → agree submissions h1 h2 →
  match round o h1 remaining, round o h2 remaining with
  | Winner w1, Winner w2 => w1 = w2
  | Eliminated r1 g1, Eliminated r2 g2 => r1 = r2 ∧ agree submissions g1 g2
  | _, _ => False
  end.
Proof.
  intros Hne Hagree.
  pose proof (countVotes_agree h1 h2 remaining Hagree) as Hcount.
  destruct (round o h1 remaining) as [w1|r1 g1] eqn:H1,
           (round o h2 remaining) as [w2|r2 g2] eqn:H2.
  - apply round_Winner in H1, H2. rewrite Hcount in H1. congruence.
  - apply round_Winner in H1. apply round_Eliminated in H2 as [H2 _]; [|done].
    rewrite Hcount in H1. congruence.
  - apply round_Winner in H2. apply round_Eliminated in H1 as [H1 _]; [|done].
    rewrite Hcount in H1. congruence.
  - apply round_Eliminated in H1 as (_ & i1 & id1 & c1 & Hi1 & Hmin1 & Hf1 & -> & ->);
      [|done].
    apply round_Eliminated in H2 as (_ & i2 & id2 & c2 & Hi2 & Hmin2 & Hf2 & -> & ->);
      [|done].
    rewrite Hcount in Hi1, Hmin1, Hf1.
    assert (i1 = i2) as ->.
    { destruct (Nat.lt_trichotomy i1 i2) as [Hlt|[?|Hlt]]; [|done|].
      - pose proof (Hf2 _ _ Hi1 Hlt) as Hc. simpl in Hc.
        pose proof (Hmin1 (id2, c2) (list_elem_of_lookup_2 _ _ _ Hi2)) as Hc'.
        simpl in Hc'. lia.
      - pose proof (Hf1 _ _ Hi2 Hlt) as Hc. simpl in Hc.
        pose proof (Hmin2 (id1, c1) (list_elem_of_lookup_2 _ _ _ Hi1)) as Hc'.
        simpl in Hc'. lia. }
    simplify_eq. split; [done|].
    case_decide; [done|]. intros r Hr. by apply rerank_agree, Hagree.
Qed.

(** A round never raises a rank and never touches a vote that the input
    does not reach. *)
Lemma round_store h remaining remaining' h' :
  remaining ≠ [] → round o h remaining = Eliminated remaining' h' →
  ∀ r, (h' r ≤ h r)%Z ∧ (r ∉ ballots submissions → h' r = h r).
Proof.
  intros Hne (_ & i & id & c & _ & _ & _ & _ & ->)%round_Eliminated r; [|done].
  case_decide; [done|]. split; [apply rerank_le|].
  intros Hr. apply rerank_fresh. intros Hin. by apply Hr, object_ballots_elem.
Qed.

Lemma runoff_agree fuel h1 h2 remaining winner rest hf1 n :
  agree submissions h1 h2 →
  runoff fuel o h1 remaining = Some (winner, rest, hf1, n) →
  ∃ hf2, runoff fuel o h2 remaining = Some (winner, rest, hf2, n) ∧ agree submissions hf1 hf2.
Proof.
  revert h1 h2 remaining winner rest hf1 n.
  induction fuel as [|fuel IH]; intros h1 h2 remaining winner rest hf1 n Hagree Hrun.
  - destruct remaining; [|done]. simplify_eq/=. eauto.
  - destruct (decide (remaining = [])) as [->|Hne].
    { simplify_eq/=. eauto. }
    rewrite runoff_step in Hrun |- * by done.
    pose proof (round_agree h1 h2 remaining Hne Hagree) as Hround.
    destruct (round o h1 remaining) as [w1|r1 g1],
             (round o h2 remaining) as [w2|r2 g2]; try done.
    + simplify_eq. eauto.
    + destruct Hround as [-> Hg].
      destruct (runoff fuel o g1 r2) as [[[[w' rest'] hf'] n']|] eqn:Hrun1;
        [|done].
      simpl in Hrun. simplify_eq.
      destruct (IH _ _ _ _ _ _ _ Hg Hrun1) as (hf2 & -> & Hf).
      simpl. eauto.
Qed.

Lemma runoff_store fuel h remaining winner rest hf n :
  runoff fuel o h remaining = Some (winner, rest, hf, n) →
  ∀ r, (hf r ≤ h r)%Z ∧ (r ∉ ballots submissions → hf r = h r).
Proof.
  revert h remaining winner rest hf n.
  induction fuel as [|fuel IH]; intros h remaining winner rest hf n Hrun r.
  - destruct remaining; [|done]. by simplify_eq/=.
  - destruct (decide (remaining = [])) as [->|Hne].
    { by simplify_eq/=. }
    rewrite runoff_step in Hrun by done.
    destruct (round o h remaining) as [w|remaining' h'] eqn:Hround.
    + by simplify_eq.
    + destruct (runoff fuel o h' remaining') as [[[[w' rest'] hf'] n']|] eqn:Hrun';
        [|done].
      simpl in Hrun. simplify_eq.
      destruct (IH _ _ _ _ _ _ Hrun' r) as [Hle Hout].
      destruct (round_store _ _ _ _ Hne Hround r) as [Hle' Hout'].
      split; [lia|]. intros Hr. by rewrite Hout, Hout'.
Qed.
End agreeing_stores.

(** *** Elimination of every candidate *)

Lemma runoff_None_all_eliminated fuel o h remaining rest hf n :
  runoff fuel o h remaining = Some (None, rest, hf, n) →
  all_eliminated o h remaining.
Proof.
  revert h remaining rest hf n.
  induction fuel as [|fuel IH]; intros h remaining rest hf n Hrun.
  - destruct remaining; [constructor | done].
  - destruct (decide (remaining = [])) as [->|Hne]; [constructor|].
    rewrite runoff_step in Hrun by done.
    destruct (round o h remaining) as [w|remaining' h'] eqn:Hround; [done|].
    destruct (runoff fuel o h' remaining') as [[[[w' rest'] hf'] n']|] eqn:Hrun';
      [|done].
    simpl in Hrun. simplify_eq.
    eapply all_eliminated_round; [done | | done | by eapply IH].
    apply round_Eliminated in Hround as [Hnone _]; [|done].
    by apply findWinner_None.
Qed.

Lemma all_eliminated_runoff o h remaining fuel :
  all_eliminated o h remaining → length remaining ≤ fuel →
  ∃ hf n, runoff fuel o h remaining = Some (None, [], hf, n).
Proof.
  intros Hall. revert fuel.
  induction Hall as [h|h remaining remaining' h' Hne Hnone Hround Hall IH];
    intros fuel Hlen.
  - rewrite runoff_nil. eauto.
  - destruct fuel as [|fuel]; [destruct remaining; [done | simpl in Hlen; lia]|].
    rewrite runoff_step, Hround by done.
    destruct (round_shrinks _ _ _ _ _ Hne Hround) as [Hlt _].
    destruct (IH fuel) as (hf & n & ->); [lia|]. simpl. eauto.
Qed.

(** *** The claims about the tally *)

(** C1. With distinct ids, when a candidate's first-place count is more than
    half of the first-place counts of all candidates, the tally returns that
    candidate from its first pass: the candidate is the first one in the
    caller's order with such a count, nothing is eliminated and no rank is
    changed. *)
Theorem first_round_majority h submissions c :
  NoDup (submission_id <$> submissions) →
  c ∈ submissions →
  majority_in h submissions c →
  (∃ i, list_find (majority_in h submissions) submissions = Some (i, c)) ∧
  runoff (length submissions) (votesBySubmission submissions) h submissions
    = Some (Some c, submissions, h, 1) ∧
  calculateInstantRunoffWinner h submissions = Some (Some c, h).
Proof.
  intros Hids Hc Hmaj.
  destruct (list_find_elem_of (majority_in h submissions) submissions c Hc Hmaj)
    as [[i w] Hfind].
  assert (w = c) as ->.
  { apply list_find_Some in Hfind as (Hi & Hw & _).
    apply list_elem_of_lookup_1 in Hc as [j Hj].
    pose proof (majority_in_unique _ _ _ _ _ _ Hi Hj Hw Hmaj) as <-. congruence. }
  assert (submissions ≠ []) as Hne by (by intros ->; apply elem_of_nil in Hc).
  assert (runoff (length submissions) (votesBySubmission submissions) h submissions
          = Some (Some c, submissions, h, 1)) as Hrun.
  { assert (∃ k, length submissions = S k) as [k ->]
      by (destruct submissions; [done | simpl; eauto]).
    rewrite runoff_step by done.
    by rewrite (round_first_place_Winner submissions h submissions Hids
                  (reflexivity _) i c Hfind). }
  split_and!; [eauto | done |].
  unfold calculateInstantRunoffWinner.
  rewrite calculateInstantRunoffWinner_fuel_runoff by done. by rewrite Hrun.
Qed.

(** From the rounds of the code to the rounds told on the ballots, and
    back. *)
Lemma all_eliminated_without_majority submissions h remaining :
  NoDup (submission_id <$> submissions) →
  Forall (λ s, submission_id s ≠ 0) submissions →
  NoDup (ballots submissions) →
  all_eliminated (votesBySubmission submissions) h remaining →
  remaining `sublist_of` submissions →
  eliminated_without_majority submissions h remaining.
Proof.
  intros Hids Hnz Hrefs Hall.
  induction Hall as [h|h remaining remaining' h' Hne Hnone Hround Hall IH];
    intros Hsub; [constructor|].
  assert (∀ s, s ∈ remaining → ¬ majority_in h remaining s) as Hnone'.
  { intros s Hs Hmaj. apply (proj1 (Forall_forall _ _) Hnone s Hs).
    by apply (has_majority_first_place submissions). }
  destruct (round_first_place_Eliminated submissions h remaining Hids Hsub Hne Hnone')
    as (l1 & x & l2 & Hsplit & Hmin & Hfirst & Hround').
  assert (submission_id x ≠ 0) as Hx.
  { eapply (proj1 (Forall_forall _ _) Hnz), elem_of_sublist; [|done].
    rewrite Hsplit. apply elem_of_app. right. left. }
  rewrite decide_False in Hround' by done.
  rewrite Hround in Hround'. injection Hround' as -> ->.
  apply (eliminated_next submissions h
           (rerank (first_place h x) (votesBySubmission submissions) h)
           remaining l1 x l2); [done | | | | |].
  - by apply Forall_forall.
  - by apply Forall_forall.
  - by apply Forall_forall.
  - intros r. by apply rerank_votesBySubmission.
  - apply IH. etrans; [|done]. rewrite Hsplit.
    apply sublist_app; [done|]. by apply sublist_cons.
Qed.

Lemma eliminated_without_majority_runoff submissions h remaining :
  NoDup (submission_id <$> submissions) →
  Forall (λ s, submission_id s ≠ 0) submissions →
  NoDup (ballots submissions) →
  eliminated_without_majority submissions h remaining →
  remaining `sublist_of` submissions →
  ∀ fuel, length remaining ≤ fuel →
    ∃ hf n, runoff fuel (votesBySubmission submissions) h remaining
            = Some (None, [], hf, n).
Proof.
  intros Hids Hnz Hrefs Hgone.
  induction Hgone as [h|h h' remaining l1 x l2 Hsplit Hnone Hmin Hfirst Hranks Hgone IH];
    intros Hsub fuel Hfuel.
  { rewrite runoff_nil. eauto. }
  assert (remaining ≠ []) as Hne by (rewrite Hsplit; by destruct l1).
  rewrite Forall_forall in Hnone, Hmin, Hfirst.
  destruct (round_first_place_Eliminated submissions h remaining Hids Hsub Hne Hnone)
    as (k1 & y & k2 & Hsplit' & Hmin' & Hfirst' & Hround).
  assert (l1 = k1 ∧ x = y ∧ l2 = k2) as (<- & <- & <-).
  { apply (first_least_unique (first_place h)); [congruence | | | done | done].
    - apply Hmin. rewrite Hsplit'. apply elem_of_app. right. left.
    - apply Hmin'. rewrite Hsplit. apply elem_of_app. right. left. }
  assert (submission_id x ≠ 0) as Hx.
  { eapply (proj1 (Forall_forall _ _) Hnz), elem_of_sublist; [|done].
    rewrite Hsplit. apply elem_of_app. right. left. }
  rewrite decide_False in Hround by done.
  assert (l1 ++ l2 `sublist_of` submissions) as Hsub'.
  { etrans; [|done]. rewrite Hsplit. apply sublist_app; [done|]. by apply sublist_cons. }
  destruct fuel as [|fuel]; [rewrite Hsplit, length_app in Hfuel; simpl in Hfuel; lia|].
  destruct (IH Hsub' fuel) as (hf & n & Hrun).
  { rewrite Hsplit, !length_app in *. simpl in Hfuel. lia. }
  destruct (runoff_agree submissions fuel h'
              (rerank (first_place h x) (votesBySubmission submissions) h)
              (l1 ++ l2) None [] hf n) as (hf2 & Hrun2 & _); [|done|].
  { intros r Hr. rewrite (Hranks r), rerank_votesBySubmission by done.
    by rewrite !decide_True. }
  rewrite runoff_step, Hround, Hrun2 by done. simpl. eauto.
Qed.

(** C2. For distinct non-zero ids and every vote object in one array only,
    the tally returns null exactly when the list of candidates is empty or
    every candidate is eliminated, round by round, without any candidate
    ever holding a strict majority of the first-place ballots; and for any
    single candidate without ballots it returns null, not the candidate. *)
Theorem tally_null_iff :
  (∀ h submissions,
     NoDup (submission_id <$> submissions) →
     Forall (λ s, submission_id s ≠ 0) submissions →
     NoDup (ballots submissions) →
     (∃ hf, calculateInstantRunoffWinner h submissions = Some (None, hf))
     ↔ submissions = [] ∨ eliminated_without_majority submissions h submissions)
  ∧ (∀ h s, votes s = [] → calculateInstantRunoffWinner h [s] = Some (None, h)).
Proof.
  split.
  - intros h submissions Hids Hnz Hrefs. unfold calculateInstantRunoffWinner.
    destruct (decide (submissions = [])) as [->|Hne].
    { split; [by left | eauto]. }
    rewrite calculateInstantRunoffWinner_fuel_runoff by done. split.
    + intros [hf Hcalc]. right.
      destruct (runoff _ _ _ _) as [[[[winner rest] hf'] n]|] eqn:Hrun; [|done].
      simpl in Hcalc. destruct winner as [w|]; [done|].
      apply all_eliminated_without_majority; [done | done | done | | done].
      by eapply runoff_None_all_eliminated.
    + intros [?|Hgone]; [done|].
      destruct (eliminated_without_majority_runoff submissions h submissions
                  Hids Hnz Hrefs Hgone (reflexivity _) (length submissions))
        as (hf & n & ->); [done|].
      simpl. eauto.
  - intros h s Hvotes.
    assert (first_place h s = 0) as Hzero.
    { unfold first_place. by rewrite Hvotes. }
    destruct (round_first_place_Eliminated [s] h [s]) as (l1 & x & l2 & Hsplit & _ & _ & Hround).
    { apply NoDup_singleton. }
    { done. }
    { done. }
    { intros s' ->%list_elem_of_singleton. unfold majority_in, total_first_place.
      simpl. lia. }
    destruct l1 as [|y l1]; [|by destruct l1].
    simpl in Hsplit, Hround. simplify_eq.
    assert (rerank (first_place h x) (votesBySubmission [x]) h = h) as Hrerank.
    { rewrite rerank_flat.
      assert (mjoin (object_values (votesBySubmission [x])) = []) as ->; [|done].
      apply join_nil, Forall_forall. intros vs [k Hk]%object_values_elem.
      apply votesBySubmission_lookup_elem in Hk as (s & ->%list_elem_of_singleton & _ & <-).
      done. }
    rewrite Hrerank in Hround.
    unfold calculateInstantRunoffWinner.
    rewrite calculateInstantRunoffWinner_fuel_runoff by done.
    change (length [x]) with 1. rewrite (runoff_step 0) by done.
    rewrite Hround. by case_decide.
Qed.

(** C3. With distinct non-zero ids and every ballot in one array only: in a
    round without a majority, once the candidate with the least count is
    removed, every ballot of every candidate of the input (eliminated ones
    too) whose rank is above that candidate's first-place count of the round
    loses 1, and every other rank stays. *)
Theorem elimination_reranks_above_count h submissions remaining :
  NoDup (submission_id <$> submissions) →
  Forall (λ s, submission_id s ≠ 0) submissions →
  NoDup (ballots submissions) →
  remaining `sublist_of` submissions →
  remaining ≠ [] →
  Forall (λ s, ¬ majority_in h remaining s) remaining →
  ∃ l1 x l2 h',
    remaining = l1 ++ x :: l2 ∧
    round (votesBySubmission submissions) h remaining = Eliminated (l1 ++ l2) h' ∧
    (∀ r, r ∈ ballots submissions → (Z.of_nat (first_place h x) < h r)%Z →
          h' r = (h r - 1)%Z) ∧
    (∀ r, r ∈ ballots submissions → (h r ≤ Z.of_nat (first_place h x))%Z →
          h' r = h r) ∧
    (∀ r, r ∉ ballots submissions → h' r = h r).
Proof.
  intros Hids Hnz Hrefs Hsub Hne Hnone.
  destruct (round_first_place_Eliminated submissions h remaining Hids Hsub Hne)
    as (l1 & x & l2 & Hsplit & _ & _ & Hround).
  { by apply Forall_forall. }
  assert (submission_id x ≠ 0) as Hx.
  { eapply (proj1 (Forall_forall _ _) Hnz), elem_of_sublist; [|done].
    rewrite Hsplit. apply elem_of_app. right. left. }
  rewrite decide_False in Hround by done.
  exists l1, x, l2, (rerank (first_place h x) (votesBySubmission submissions) h).
  split_and!; [done | done | | |]; intros r Hr;
    rewrite rerank_votesBySubmission by done; unfold decrement_above.
  - intros Hlt. by rewrite decide_True, decide_True.
  - intros Hle. rewrite decide_True by done. rewrite decide_False; [done | lia].
  - by rewrite decide_False.
Qed.

(** C4. With distinct ids: a round without a majority removes from the
    remaining candidates exactly the first one, in their order, whose
    first-place count is the least count; of candidates tied at the least
    count the earliest goes. *)
Theorem elimination_removes_first_minimum h submissions remaining :
  NoDup (submission_id <$> submissions) →
  remaining `sublist_of` submissions →
  remaining ≠ [] →
  Forall (λ s, ¬ majority_in h remaining s) remaining →
  ∃ l1 x l2 h',
    remaining = l1 ++ x :: l2 ∧
    round (votesBySubmission submissions) h remaining = Eliminated (l1 ++ l2) h' ∧
    (∀ s, s ∈ remaining → first_place h x ≤ first_place h s) ∧
    (∀ s, s ∈ l1 → first_place h x < first_place h s) ∧
    (∀ s, s ∈ remaining → first_place h s = first_place h x → s = x ∨ s ∈ l2).
Proof.
  intros Hids Hsub Hne Hnone.
  destruct (round_first_place_Eliminated submissions h remaining Hids Hsub Hne)
    as (l1 & x & l2 & Hsplit & Hmin & Hfirst & Hround).
  { by apply Forall_forall. }
  eexists l1, x, l2, _. split_and!; [done | done | done | done |].
  intros s Hs Htie. rewrite Hsplit in Hs.
  apply elem_of_app in Hs as [Hs|Hs].
  - specialize (Hfirst s Hs). lia.
  - apply elem_of_cons in Hs as [?|?]; auto.
Qed.

(** C5, as the code has it.  The tally works on the vote objects it is
    given: its result and the ranks it leaves depend only on the ranks of the
    votes reachable from the candidates; a vote that no candidate reaches is
    never written, no rank is ever raised, and no rank changes at all when
    the list is empty or the first pass finds the winner.  (Ranks of
    reachable votes do change in passes that eliminate a candidate.) *)
Theorem tally_store_effect h1 h2 submissions :
  (∀ r, r ∈ ballots submissions → h1 r = h2 r) →
  ∃ result hf1 hf2,
    calculateInstantRunoffWinner h1 submissions = Some (result, hf1) ∧
    calculateInstantRunoffWinner h2 submissions = Some (result, hf2) ∧
    (∀ r, r ∈ ballots submissions → hf1 r = hf2 r) ∧
    (∀ r, r ∉ ballots submissions → hf1 r = h1 r) ∧
    (∀ r, (hf1 r ≤ h1 r)%Z) ∧
    (submissions = [] ∨
     (∃ w, round (votesBySubmission submissions) h1 submissions = Winner w) →
     hf1 = h1).
Proof.
  intros Hagree. unfold calculateInstantRunoffWinner.
  destruct (decide (submissions = [])) as [->|Hne].
  { exists None, h1, h2. by split_and!. }
  rewrite !calculateInstantRunoffWinner_fuel_runoff by done.
  destruct (runoff_total (length submissions) (votesBySubmission submissions)
              h1 submissions) as (winner & rest & hf1 & n & Hrun1 & _); [done|].
  destruct (runoff_agree _ _ _ _ _ _ _ _ _ Hagree Hrun1) as (hf2 & Hrun2 & Hf).
  exists (result_of winner rest), hf1, hf2. rewrite Hrun1, Hrun2. simpl.
  split_and!; [done | done | done | | |].
  - intros r. by apply (runoff_store _ _ _ _ _ _ _ _ Hrun1).
  - intros r. by apply (runoff_store _ _ _ _ _ _ _ _ Hrun1).
  - intros [?|[w Hw]]; [done|].
    assert (∃ k, length submissions = S k) as [k Hk]
      by (destruct submissions; [done | simpl; eauto]).
    rewrite Hk, runoff_step, Hw in Hrun1 by done. by simplify_eq.
Qed.

(** C6. The tally returns on every input.  A round that finds no winner
    leaves fewer candidates (exactly one fewer when the ids are distinct), so
    the loop makes at most as many passes as there are candidates, and any
    fuel from that number on gives the same result. *)
Theorem tally_terminates :
  (∀ h submissions,
     ∃ winner rest hf n,
       n ≤ length submissions ∧
       ∀ fuel, length submissions ≤ fuel →
         runoff fuel (votesBySubmission submissions) h submissions
           = Some (winner, rest, hf, n) ∧
         calculateInstantRunoffWinner_fuel fuel h submissions
           = Some (result_of winner rest, hf)) ∧
  (∀ o h remaining remaining' h',
     remaining ≠ [] →
     round o h remaining = Eliminated remaining' h' →
     length remaining' < length remaining) ∧
  (∀ submissions h remaining remaining' h',
     NoDup (submission_id <$> submissions) →
     remaining `sublist_of` submissions →
     remaining ≠ [] →
     round (votesBySubmission submissions) h remaining = Eliminated remaining' h' →
     length remaining = S (length remaining')).
Proof.
  split_and!.
  - intros h submissions.
    destruct (runoff_total (length submissions) (votesBySubmission submissions)
                h submissions) as (winner & rest & hf & n & Hrun & Hn & _); [done|].
    exists winner, rest, hf, n. split; [done|]. intros fuel Hfuel.
    pose proof (runoff_more_fuel _ fuel _ _ _ _ Hrun Hfuel) as Hrun'.
    split; [done|].
    destruct (decide (submissions = [])) as [->|Hne].
    + rewrite runoff_nil in Hrun'. by simplify_eq.
    + rewrite calculateInstantRunoffWinner_fuel_runoff by done. by rewrite Hrun'.
  - intros o h remaining remaining' h' Hne Hround.
    by apply (round_shrinks _ _ _ _ _ Hne Hround).
  - intros submissions h remaining remaining' h' Hids Hsub Hne Hround.
    destruct (round_first_place_Eliminated submissions h remaining Hids Hsub Hne)
      as (l1 & x & l2 & -> & _ & _ & Hround').
    { intros s Hs Hmaj.
      apply round_Eliminated in Hround as [Hnone _]; [|done].
      apply findWinner_None in Hnone.
      apply (proj1 (Forall_forall _ _) Hnone s Hs).
      by apply (has_majority_first_place submissions). }
    rewrite Hround in Hround'. simplify_eq.
    rewrite !length_app. simpl. lia.
Qed.

(** C10. The tally returns null or one of the candidates it was given.  The
    loop ends with a winner taken from the input or with no candidate left,
    so [remainingSubmissions[0]] after the loop never supplies the result. *)
Theorem tally_result_from_input h submissions :
  ∃ winner rest hf n,
    runoff (length submissions) (votesBySubmission submissions) h submissions
      = Some (winner, rest, hf, n) ∧
    calculateInstantRunoffWinner h submissions = Some (winner, hf) ∧
    ((winner = None ∧ rest = [] ∧ head rest = None) ∨
     (∃ s, winner = Some s ∧ s ∈ submissions)).
Proof.
  destruct (runoff_total (length submissions) (votesBySubmission submissions)
              h submissions) as (winner & rest & hf & n & Hrun & _ & _ & Hw); [done|].
  exists winner, rest, hf, n. split; [done|]. split.
  - unfold calculateInstantRunoffWinner.
    destruct (decide (submissions = [])) as [->|Hne].
    + rewrite runoff_nil in Hrun. by simplify_eq.
    + rewrite calculateInstantRunoffWinner_fuel_runoff, Hrun by done. simpl.
      by destruct Hw as [[-> ->]|(s & -> & _)].
  - destruct Hw as [[-> ->]|?]; [by left | by right].
Qed.

(** *** More about the tally *)

Lemma rerank_no_ballots threshold o h :
  mjoin (object_values o) = [] → rerank threshold o h = h.
Proof. intros Hnil. by rewrite rerank_flat, Hnil. Qed.

Lemma votesBySubmission_no_ballots submissions :
  Forall (λ s, votes s = []) submissions →
  (∀ id, votes_of (votesBySubmission submissions) id = []) ∧
  mjoin (object_values (votesBySubmission submissions)) = [].
Proof.
  intros Hall. rewrite Forall_forall in Hall. split.
  - intros id. unfold votes_of.
    destruct (_ !! id) as [vs|] eqn:Hvs; [|done]. simpl.
    apply votesBySubmission_lookup_elem in Hvs as (s & Hs & _ & <-). by apply Hall.
  - apply join_nil, Forall_forall. intros vs [k Hk]%object_values_elem.
    apply votesBySubmission_lookup_elem in Hk as (s & Hs & _ & <-). by apply Hall.
Qed.

Lemma round_no_ballots o h remaining :
  (∀ id, votes_of o id = []) → mjoin (object_values o) = [] → remaining ≠ [] →
  ∃ remaining',
    round o h remaining = Eliminated remaining' h ∧
    length remaining' < length remaining.
Proof.
  intros Hvotes Hnil Hne.
  destruct (round o h remaining) as [w|remaining' h'] eqn:Hround.
  - apply round_Winner in Hround.
    pose proof (findWinner_elem _ _ _ Hround) as Hw.
    apply findWinner_Some in Hround as [i (_ & Hmaj & _)%list_find_Some].
    unfold has_majority in Hmaj. rewrite countVotes_get in Hmaj by done.
    unfold count_for in Hmaj. rewrite Hvotes in Hmaj. simpl in Hmaj. lia.
  - destruct (round_shrinks _ _ _ _ _ Hne Hround) as [Hlt _].
    apply round_Eliminated in Hround as (_ & i & id & c & _ & _ & _ & -> & ->);
      [|done].
    eexists. split; [|done]. f_equal. case_decide; [done|].
    by apply rerank_no_ballots.
Qed.

(** X16. Candidates without any vote give no winner: when every votes array
    is empty the tally returns null and changes no rank, for any number of
    candidates, whatever their ids. *)
Theorem no_ballots_no_winner h submissions :
  Forall (λ s, votes s = []) submissions →
  calculateInstantRunoffWinner h submissions = Some (None, h).
Proof.
  intros Hall.
  destruct (votesBySubmission_no_ballots submissions Hall) as [Hvotes Hnil].
  assert (∀ fuel remaining, length remaining ≤ fuel →
            ∃ n, runoff fuel (votesBySubmission submissions) h remaining
                 = Some (None, [], h, n)) as Hrun.
  { induction fuel as [|fuel IH]; intros remaining Hlen.
    - destruct remaining; [|simpl in Hlen; lia]. by exists 0.
    - destruct (decide (remaining = [])) as [->|Hne]; [by exists 0|].
      rewrite runoff_step by done.
      destruct (round_no_ballots _ h _ Hvotes Hnil Hne) as (remaining' & -> & Hlt).
      destruct (IH remaining') as [n ->]; [lia|]. by exists (S n). }
  unfold calculateInstantRunoffWinner.
  destruct (decide (submissions = [])) as [->|Hne]; [done|].
  rewrite calculateInstantRunoffWinner_fuel_runoff by done.
  by destruct (Hrun (length submissions) submissions) as [n ->].
Qed.

Lemma runoff_Winner fuel o h remaining w rest hf n :
  runoff fuel o h remaining = Some (Some w, rest, hf, n) →
  rest `sublist_of` remaining ∧ rest ≠ [] ∧ round o hf rest = Winner w.
Proof.
  revert h remaining n.
  induction fuel as [|fuel IH]; intros h remaining n Hrun.
  - by destruct remaining.
  - destruct (decide (remaining = [])) as [->|Hne]; [done|].
    rewrite runoff_step in Hrun by done.
    destruct (round o h remaining) as [w'|remaining' h'] eqn:Hround.
    + by simplify_eq.
    + destruct (runoff fuel o h' remaining') as [[[[w' rest'] hf'] n']|] eqn:Hrun';
        [|done].
      simpl in Hrun. simplify_eq.
      destruct (IH _ _ _ Hrun') as (Hsub & Hrest & Hw).
      split_and!; [|done|done]. etrans; [done|].
      by apply (round_shrinks _ _ _ _ _ Hne Hround).
Qed.

(** X17. With distinct ids, a candidate that the tally returns is the
    winner with which the loop ends; with [rest] the [remainingSubmissions]
    of the loop at its end, the candidate is in [rest] and, on the ranks as
    the tally leaves them, holds more than half of the first-place ballots of
    the candidates in [rest]; so it has at least one first-place ballot. *)
Theorem winner_holds_majority h submissions w hf :
  NoDup (submission_id <$> submissions) →
  calculateInstantRunoffWinner h submissions = Some (Some w, hf) →
  ∃ rest n,
    runoff (length submissions) (votesBySubmission submissions) h submissions
      = Some (Some w, rest, hf, n) ∧
    rest `sublist_of` submissions ∧
    w ∈ rest ∧
    majority_in hf rest w ∧
    1 ≤ first_place hf w.
Proof.
  intros Hids Hcalc. unfold calculateInstantRunoffWinner in Hcalc.
  destruct (decide (submissions = [])) as [->|Hne]; [done|].
  rewrite calculateInstantRunoffWinner_fuel_runoff in Hcalc by done.
  destruct (runoff_total (length submissions) (votesBySubmission submissions)
              h submissions) as (winner & rest & hf' & n & Hrun & _ & _ & Hw); [done|].
  rewrite Hrun in Hcalc. simpl in Hcalc.
  destruct Hw as [[-> ->]|(w' & -> & _)]; [done|]. simplify_eq/=.
  pose proof Hrun as Hloop.
  apply runoff_Winner in Hrun as (Hsub & _ & Hround).
  apply round_Winner in Hround.
  rewrite (findWinner_first_place submissions hf rest Hids Hsub) in Hround.
  destruct (list_find _ _) as [[i w']|] eqn:Hfind; [|done]. simplify_eq/=.
  apply list_find_Some in Hfind as (Hi & Hmaj & _).
  exists rest, n. split_and!; [done | done | by eapply list_elem_of_lookup_2 | done |].
  unfold majority_in in Hmaj. lia.
Qed.

Lemma decrement_above_first threshold rank :
  decrement_above threshold rank = 1%Z ↔
  (threshold = 0 ∧ rank = 2%Z) ∨
  (threshold = 1 ∧ (rank = 1%Z ∨ rank = 2%Z)) ∨
  (2 ≤ threshold ∧ rank = 1%Z).
Proof. unfold decrement_above. case_decide; lia. Qed.

(** X18. How an elimination changes the first-place counts, for distinct
    non-zero ids and every vote object in one array only.  With [c] the
    first-place count of the candidate removed: if [c] is 0 every first-place
    ballot drops out of the count and the ballots of rank 2 become the
    first-place ballots; if [c] is 1 the ballots of rank 2 are added to the
    first-place ballots; if [c] is 2 or more no count changes, so the ballots
    of the candidate removed are not passed on. *)
Theorem first_place_after_elimination h submissions remaining :
  NoDup (submission_id <$> submissions) →
  Forall (λ s, submission_id s ≠ 0) submissions →
  NoDup (ballots submissions) →
  remaining `sublist_of` submissions →
  remaining ≠ [] →
  Forall (λ s, ¬ majority_in h remaining s) remaining →
  ∃ l1 x l2 h',
    remaining = l1 ++ x :: l2 ∧
    round (votesBySubmission submissions) h remaining = Eliminated (l1 ++ l2) h' ∧
    ∀ s, s ∈ submissions →
      (first_place h x = 0 →
         first_place h' s = length (filter (λ r, h r = 2%Z) (votes s))) ∧
      (first_place h x = 1 →
         first_place h' s
         = length (filter (λ r, h r = 1%Z ∨ h r = 2%Z) (votes s))) ∧
      (2 ≤ first_place h x → first_place h' s = first_place h s).
Proof.
  intros Hids Hnz Hrefs Hsub Hne Hnone.
  destruct (round_first_place_Eliminated submissions h remaining Hids Hsub Hne)
    as (l1 & x & l2 & Hsplit & _ & _ & Hround).
  { by apply Forall_forall. }
  assert (submission_id x ≠ 0) as Hx.
  { eapply (proj1 (Forall_forall _ _) Hnz), elem_of_sublist; [|done].
    rewrite Hsplit. apply elem_of_app. right. left. }
  rewrite decide_False in Hround by done.
  exists l1, x, l2, (rerank (first_place h x) (votesBySubmission submissions) h).
  split_and!; [done | done |]. intros s Hs.
  assert (∀ r, r ∈ votes s →
            rerank (first_place h x) (votesBySubmission submissions) h r
            = decrement_above (first_place h x) (h r)) as Hrank.
  { intros r Hr. rewrite rerank_votesBySubmission by done.
    rewrite decide_True; [done|]. unfold ballots. apply list_elem_of_join.
    exists (votes s). split; [done|]. by apply list_elem_of_fmap_2. }
  generalize dependent (first_place h x). intros c _ Hrank.
  assert (first_place (rerank c (votesBySubmission submissions) h) s
          = length (filter (λ r, decrement_above c (h r) = 1%Z) (votes s))) as ->.
  { unfold first_place, firstChoiceVotes. f_equal. apply filter_ext_elem.
    intros r Hr. by rewrite Hrank. }
  unfold first_place, firstChoiceVotes.
  split_and!; intros Hc; f_equal; apply list_filter_iff; intros r;
    rewrite decrement_above_first; lia.
Qed.

Lemma rerank_keeps_first threshold o h r :
  2 ≤ threshold → rerank threshold o h r = 1%Z ↔ h r = 1%Z.
Proof.
  intros Hc. rewrite rerank_flat. generalize (mjoin (object_values o)) as vs.
  intros vs. revert h. induction vs as [|v vs IH]; intros h; simpl; [done|].
  rewrite IH, rerank_vote_lookup. case_decide; [|done].
  rewrite decrement_above_first. lia.
Qed.

(** X19. For any input: in a round without a majority in which every
    remaining candidate has at least two first-place ballots, the
    elimination turns no ballot into a first-place ballot and no first-place
    ballot into another one, so every array of votes counts as many
    first-place ballots after the round as before. *)
Theorem survivors_keep_counts o h remaining :
  remaining ≠ [] →
  no_majority o h remaining →
  Forall (λ s, 2 ≤ count_for o h (submission_id s)) remaining →
  ∃ remaining' h',
    round o h remaining = Eliminated remaining' h' ∧
    (∀ r, h' r = 1%Z ↔ h r = 1%Z) ∧
    ∀ vs, firstChoiceVotes h' vs = firstChoiceVotes h vs.
Proof.
  intros Hne Hnone Hcounts.
  destruct (round o h remaining) as [w|remaining' h'] eqn:Hround.
  { apply round_Winner in Hround. apply findWinner_None in Hnone. congruence. }
  exists remaining', h'. split; [done|].
  assert (∀ r, h' r = 1%Z ↔ h r = 1%Z) as Hfirst.
  { apply round_Eliminated in Hround as (_ & i & id & c & Hi & _ & _ & _ & ->);
      [|done].
    intros r. case_decide; [done|]. apply rerank_keeps_first.
    apply list_elem_of_lookup_2 in Hi.
    pose proof (countVotes_elem _ _ _ _ _ Hi) as ->.
    assert (id ∈ submission_id <$> remaining) as (s & -> & Hs)%list_elem_of_fmap.
    { apply (countVotes_keys o h). by apply (list_elem_of_fmap_2 fst) in Hi. }
    by apply (proj1 (Forall_forall _ _) Hcounts). }
  split; [done|]. intros vs. unfold firstChoiceVotes. f_equal.
  by apply list_filter_iff.
Qed.

(** *** Past winners *)

Global Instance night_le_Total : Total night_le.
Proof. intros e1 e2. unfold night_le. lia. Qed.

(** What the reduce of [fetchPastWinners] holds for a night after a list of
    submissions. *)
Lemma pastWinnersByNight_lookup l n :
  match pastWinnersByNight l !! n with
  | None => ∀ s, s ∈ l → night_id s ≠ n
  | Some w =>
      ∃ i s,
        l !! i = Some s ∧ w = withVoteCount s ∧ night_id s = n ∧
        (∀ s', s' ∈ l → night_id s' = n → length (votes s') ≤ length (votes s)) ∧
        (∀ j s', l !! j = Some s' → j < i → night_id s' = n →
           length (votes s') < length (votes s))
  end.
Proof.
  induction l as [|x l IH] using rev_ind.
  - unfold pastWinnersByNight. simpl. rewrite lookup_empty.
    by intros s ?%elem_of_nil.
  - unfold pastWinnersByNight. rewrite foldl_app. simpl.
    fold (pastWinnersByNight l). set (m := pastWinnersByNight l) in *.
    destruct (decide (night_id x = n)) as [Hn|Hn].
    + subst n. destruct (m !! night_id x) as [best|] eqn:Hbest.
      * destruct IH as (i & s & Hi & -> & Hs & Hmax & Hfirst). simpl.
        case_decide as Hmore.
        -- rewrite lookup_insert_eq. exists (length l), x.
           split_and!; [by apply list_lookup_middle | done | done | |].
           ++ intros s' [Hs'| ->]%elem_of_snoc_iff Hnight; [|done].
              specialize (Hmax s' Hs' Hnight). lia.
           ++ intros j s' [[_ Hj]|[-> _]]%lookup_snoc_Some Hlt Hnight; [|lia].
              apply list_elem_of_lookup_2 in Hj. specialize (Hmax s' Hj Hnight). lia.
        -- rewrite Hbest. exists i, s.
           assert (i < length l) by (by eapply lookup_lt_Some).
           split_and!; [by rewrite lookup_app_l | done | done | |].
           ++ intros s' [Hs'| ->]%elem_of_snoc_iff Hnight;
                [by apply Hmax | lia].
           ++ intros j s' [[_ Hj]|[-> _]]%lookup_snoc_Some Hlt Hnight; [|lia].
              by eapply Hfirst.
      * rewrite lookup_insert_eq. exists (length l), x.
        split_and!; [by apply list_lookup_middle | done | done | |].
        -- intros s' [Hs'| ->]%elem_of_snoc_iff Hnight; [|done].
           by destruct (IH s' Hs').
        -- intros j s' [[_ Hj]|[-> _]]%lookup_snoc_Some Hlt Hnight; [|lia].
           apply list_elem_of_lookup_2 in Hj. by destruct (IH s' Hj).
    + assert (match m !! night_id x with
              | Some best =>
                  if decide (voteCount best < length (votes x))
                  then <[night_id x := withVoteCount x]> m else m
              | None => <[night_id x := withVoteCount x]> m
              end !! n = m !! n) as ->.
      { destruct (m !! night_id x); [case_decide|]; by rewrite ?lookup_insert_ne. }
      destruct (m !! n) as [w|].
      * destruct IH as (i & s & Hi & -> & Hs & Hmax & Hfirst).
        assert (i < length l) by (by eapply lookup_lt_Some).
        exists i, s. split_and!; [by rewrite lookup_app_l | done | done | |].
        -- intros s' [Hs'| ->]%elem_of_snoc_iff Hnight;
             [by apply Hmax | done].
        -- intros j s' [[_ Hj]|[-> <-]]%lookup_snoc_Some Hlt Hnight; [|done].
           by eapply Hfirst.
      * intros s' [Hs'| ->]%elem_of_snoc_iff; [by apply IH | done].
Qed.

Lemma fetchPastWinners_elem l w :
  w ∈ fetchPastWinners l ↔ ∃ n, pastWinnersByNight l !! n = Some w.
Proof.
  unfold fetchPastWinners. rewrite merge_sort_Permutation, list_elem_of_fmap. split.
  - intros ([n w'] & -> & Hin). exists n. by apply elem_of_map_to_list.
  - intros [n Hn]. exists (n, w). split; [done|]. by apply elem_of_map_to_list.
Qed.

Lemma fetchPastWinners_nights l :
  night_id <$> fetchPastWinners l
  = (merge_sort night_le (map_to_list (pastWinnersByNight l))).*1.
Proof.
  unfold fetchPastWinners. rewrite <-list_fmap_compose.
  apply list_fmap_ext. intros i [n w] Hi. simpl.
  apply list_elem_of_lookup_2 in Hi. rewrite merge_sort_Permutation in Hi.
  apply elem_of_map_to_list in Hi.
  pose proof (pastWinnersByNight_lookup l n) as Hspec. rewrite Hi in Hspec.
  by destruct Hspec as (_ & s & _ & -> & <- & _).
Qed.

(** X20. The list of past winners has one entry per night that has a
    submission: its nights ascend, whatever the order of the rows read, no
    night comes twice, and a night is listed exactly when some submission
    read belongs to it. *)
Theorem past_winners_one_per_night l :
  Sorted le (night_id <$> fetchPastWinners l) ∧
  NoDup (night_id <$> fetchPastWinners l) ∧
  ∀ n, n ∈ night_id <$> fetchPastWinners l ↔ ∃ s, s ∈ l ∧ night_id s = n.
Proof.
  rewrite fetchPastWinners_nights. split_and!.
  - apply (Sorted_fmap fst night_le); [done|]. apply Sorted_merge_sort. apply _.
  - rewrite merge_sort_Permutation. apply NoDup_fst_map_to_list.
  - intros n. rewrite merge_sort_Permutation, list_elem_of_fmap.
    pose proof (pastWinnersByNight_lookup l n) as Hspec. split.
    + intros ([n' w] & -> & Hin%elem_of_map_to_list). simpl in *.
      rewrite Hin in Hspec. destruct Hspec as (i & s & Hi & _ & Hs & _).
      exists s. split; [by eapply list_elem_of_lookup_2 | done].
    + intros (s & Hs & Hn).
      destruct (pastWinnersByNight l !! n) as [w|] eqn:Hw; [|by destruct (Hspec s Hs)].
      exists (n, w). split; [done|]. by apply elem_of_map_to_list.
Qed.

(** X21. Every past winner is a submission read, with [voteCount] set to the
    number of its votes: it has the most votes among the submissions of its
    night, and of those with the most votes it is the first in the order
    read. *)
Theorem past_winner_most_votes l :
  Forall (λ w,
            ∃ i s,
              l !! i = Some s ∧ w = withVoteCount s ∧
              (∀ s', s' ∈ l → night_id s' = night_id s →
                 length (votes s') ≤ length (votes s)) ∧
              (∀ j s', l !! j = Some s' → j < i → night_id s' = night_id s →
                 length (votes s') < length (votes s)))
         (fetchPastWinners l).
Proof.
  apply Forall_forall. intros w [n Hn]%fetchPastWinners_elem.
  pose proof (pastWinnersByNight_lookup l n) as Hspec. rewrite Hn in Hspec.
  destruct Hspec as (i & s & Hi & -> & <- & Hmax & Hfirst). by exists i, s.
Qed.

(** *** The claims at given inputs *)

(** The guard [if (losingSubmissionId)] reads the id 0 as false: when the
    candidate removed has id 0 the round leaves every rank as it is.  The
    facts about re-ranking are therefore stated for ids other than 0. *)
Example id_zero_skips_rerank :
  round (votesBySubmission [candidate 0 [0]; candidate 1 [1]]) (heap_of [2; 2]%Z)
        [candidate 0 [0]; candidate 1 [1]]
  = Eliminated [candidate 1 [1]] (heap_of [2; 2]%Z).
Proof. vm_compute. reflexivity. Qed.

Lemma first_round_majority_witness :
  (∃ i, list_find (majority_in majority_ranks [movieA; movieB; movieC])
                  [movieA; movieB; movieC] = Some (i, movieB)) ∧
  runoff 3 (votesBySubmission [movieA; movieB; movieC]) majority_ranks
         [movieA; movieB; movieC]
    = Some (Some movieB, [movieA; movieB; movieC], majority_ranks, 1) ∧
  calculateInstantRunoffWinner majority_ranks [movieA; movieB; movieC]
    = Some (Some movieB, majority_ranks).
Proof.
  apply (first_round_majority majority_ranks [movieA; movieB; movieC] movieB).
  - by_evaluation.
  - right. left.
  - by_evaluation.
Defined.

Lemma tally_null_iff_witness :
  calculateInstantRunoffWinner split_ranks [candidate 5 []]
  = Some (None, split_ranks)
  ∧ eliminated_without_majority [candidate 1 [0]] (heap_of [3%Z]) [candidate 1 [0]].
Proof.
  split.
  - apply (proj2 tally_null_iff split_ranks (candidate 5 [])). reflexivity.
  - destruct (proj1 (proj1 tally_null_iff (heap_of [3%Z]) [candidate 1 [0]]
                       ltac:(by_evaluation) ltac:(by_evaluation) ltac:(by_evaluation)))
      as [?|?]; [|done|done].
    eexists. vm_compute. reflexivity.
Defined.

Lemma elimination_reranks_above_count_witness :
  ∃ l1 x l2 h',
    [movieA; movieB; movieC] = l1 ++ x :: l2 ∧
    round (votesBySubmission [movieA; movieB; movieC]) split_ranks
          [movieA; movieB; movieC] = Eliminated (l1 ++ l2) h' ∧
    (∀ r, r ∈ ballots [movieA; movieB; movieC] →
          (Z.of_nat (first_place split_ranks x) < split_ranks r)%Z →
          h' r = (split_ranks r - 1)%Z) ∧
    (∀ r, r ∈ ballots [movieA; movieB; movieC] →
          (split_ranks r ≤ Z.of_nat (first_place split_ranks x))%Z →
          h' r = split_ranks r) ∧
    (∀ r, r ∉ ballots [movieA; movieB; movieC] → h' r = split_ranks r).
Proof.
  apply (elimination_reranks_above_count split_ranks [movieA; movieB; movieC]).
  - by_evaluation.
  - by_evaluation.
  - by_evaluation.
  - reflexivity.
  - discriminate.
  - by_evaluation.
Defined.

Lemma elimination_removes_first_minimum_witness :
  ∃ l1 x l2 h',
    [movieA; movieB; movieC] = l1 ++ x :: l2 ∧
    round (votesBySubmission [movieA; movieB; movieC]) split_ranks
          [movieA; movieB; movieC] = Eliminated (l1 ++ l2) h' ∧
    (∀ s, s ∈ [movieA; movieB; movieC] →
          first_place split_ranks x ≤ first_place split_ranks s) ∧
    (∀ s, s ∈ l1 → first_place split_ranks x < first_place split_ranks s) ∧
    (∀ s, s ∈ [movieA; movieB; movieC] →
          first_place split_ranks s = first_place split_ranks x → s = x ∨ s ∈ l2).
Proof.
  apply (elimination_removes_first_minimum split_ranks [movieA; movieB; movieC]).
  - by_evaluation.
  - reflexivity.
  - discriminate.
  - by_evaluation.
Defined.

(** C5, as the claim states it, fails.  On the three movies with the split
    ranks the tally returns C and leaves the vote of the second voter for A
    at rank 1 instead of 2; called again on the same objects it returns A. *)
Lemma tally_twice_differs :
  fst <$> calculateInstantRunoffWinner split_ranks [movieA; movieB; movieC]
    = Some (Some movieC) ∧
  split_ranks 1 = 2%Z ∧
  ranks_after split_ranks [movieA; movieB; movieC] 1 = 1%Z ∧
  fst <$> calculateInstantRunoffWinner
            (ranks_after split_ranks [movieA; movieB; movieC])
            [movieA; movieB; movieC]
    = Some (Some movieA).
Proof. split_and!; vm_compute; reflexivity. Qed.

Lemma tally_store_effect_witness :
  ∃ result hf1 hf2,
    calculateInstantRunoffWinner split_ranks [movieA; movieB] = Some (result, hf1) ∧
    calculateInstantRunoffWinner split_ranks_other [movieA; movieB] = Some (result, hf2) ∧
    (∀ r, r ∈ ballots [movieA; movieB] → hf1 r = hf2 r) ∧
    (∀ r, r ∉ ballots [movieA; movieB] → hf1 r = split_ranks r) ∧
    (∀ r, (hf1 r ≤ split_ranks r)%Z) ∧
    ([movieA; movieB] = [] ∨
     (∃ w, round (votesBySubmission [movieA; movieB]) split_ranks [movieA; movieB]
           = Winner w) →
     hf1 = split_ranks).
Proof.
  apply (tally_store_effect split_ranks split_ranks_other [movieA; movieB]).
  apply Forall_forall. by_evaluation.
Defined.

Lemma tally_terminates_witness :
  ∃ remaining' h',
    round (votesBySubmission [movieA; movieB; movieC]) split_ranks
          [movieA; movieB; movieC] = Eliminated remaining' h' ∧
    length [movieA; movieB; movieC] = S (length remaining').
Proof.
  destruct (round (votesBySubmission [movieA; movieB; movieC]) split_ranks
                  [movieA; movieB; movieC]) as [w|remaining' h'] eqn:Hround.
  { exfalso. vm_compute in Hround. discriminate. }
  exists remaining', h'. split; [reflexivity|].
  apply (proj2 (proj2 tally_terminates) [movieA; movieB; movieC] split_ranks
               [movieA; movieB; movieC] remaining' h').
  - by_evaluation.
  - reflexivity.
  - discriminate.
  - exact Hround.
Defined.

Lemma no_ballots_no_winner_witness :
  calculateInstantRunoffWinner split_ranks
    [candidate 1 []; candidate 2 []; candidate 1 []]
  = Some (None, split_ranks).
Proof. apply no_ballots_no_winner. by_evaluation. Defined.

Lemma winner_holds_majority_witness :
  ∃ rest n,
    runoff 3 (votesBySubmission [movieA; movieB; movieC]) split_ranks
           [movieA; movieB; movieC]
      = Some (Some movieC, rest,
              ranks_after split_ranks [movieA; movieB; movieC], n) ∧
    rest `sublist_of` [movieA; movieB; movieC] ∧
    movieC ∈ rest ∧
    majority_in (ranks_after split_ranks [movieA; movieB; movieC]) rest movieC ∧
    1 ≤ first_place (ranks_after split_ranks [movieA; movieB; movieC]) movieC.
Proof.
  apply (winner_holds_majority split_ranks [movieA; movieB; movieC]).
  - by_evaluation.
  - vm_compute. reflexivity.
Defined.

Lemma first_place_after_elimination_witness :
  ∃ l1 x l2 h',
    [movieA; movieB; movieC] = l1 ++ x :: l2 ∧
    round (votesBySubmission [movieA; movieB; movieC]) split_ranks
          [movieA; movieB; movieC] = Eliminated (l1 ++ l2) h' ∧
    ∀ s, s ∈ [movieA; movieB; movieC] →
      (first_place split_ranks x = 0 →
         first_place h' s = length (filter (λ r, split_ranks r = 2%Z) (votes s))) ∧
      (first_place split_ranks x = 1 →
         first_place h' s
         = length (filter (λ r, split_ranks r = 1%Z ∨ split_ranks r = 2%Z) (votes s))) ∧
      (2 ≤ first_place split_ranks x → first_place h' s = first_place split_ranks s).
Proof.
  apply (first_place_after_elimination split_ranks [movieA; movieB; movieC]).
  - by_evaluation.
  - by_evaluation.
  - by_evaluation.
  - reflexivity.
  - discriminate.
  - by_evaluation.
Defined.

Lemma survivors_keep_counts_witness :
  ∃ remaining' h',
    round (votesBySubmission [movieA; movieB]) tied_ranks [movieA; movieB]
      = Eliminated remaining' h' ∧
    (∀ r, h' r = 1%Z ↔ tied_ranks r = 1%Z) ∧
    ∀ vs, firstChoiceVotes h' vs = firstChoiceVotes tied_ranks vs.
Proof.
  apply (survivors_keep_counts (votesBySubmission [movieA; movieB]) tied_ranks).
  - discriminate.
  - unfold no_majority. by_evaluation.
  - by_evaluation.
Defined.

End TallyProofs.

(** ** The phase schedule *)

Module ScheduleProofs.
Import Schedule.

Lemma getDay_range today : (0 ≤ getDay today < 7)%Z.
Proof. unfold getDay. apply Z.mod_pos_bound. lia. Qed.

(** C9. Without the administrator's override the phase computed at a time
    is a function of the day of the week alone: day 4 gives [winner], days
    2, 3, 5 and 6 give [voting], days 0 and 1 give [submission]. *)
Theorem phase_by_day today st :
  isAdminMode st = false →
  let day := getDay today in
  let phase := currentPhase (phaseEffect today st) in
  (0 ≤ day ≤ 6)%Z ∧
  (day = 4%Z → phase = winner) ∧
  ((2 ≤ day)%Z → day ≠ 4%Z → phase = voting) ∧
  (day = 2%Z ∨ day = 3%Z ∨ day = 5%Z ∨ day = 6%Z → phase = voting) ∧
  (day = 0%Z ∨ day = 1%Z → phase = submission) ∧
  (∀ today' st', isAdminMode st' = false → getDay today' = day →
     currentPhase (phaseEffect today' st') = phase).
Proof.
  intros Hadmin day phase. subst day phase.
  pose proof (getDay_range today) as Hrange.
  unfold phaseEffect, determineCurrentPhase. rewrite Hadmin.
  split_and!; [lia | lia | ..].
  - intros ->. by rewrite decide_True.
  - intros ??. by rewrite decide_False, decide_True.
  - intros ?. rewrite decide_False, decide_True; [done | lia..].
  - intros ?. rewrite decide_False, decide_False; [done | lia..].
  - intros today' st' -> ->. by repeat case_decide.
Qed.

Lemma phase_by_day_witness :
  getDay thursday = 4%Z ∧ currentPhase (phaseEffect thursday participant) = winner.
Proof.
  split; [reflexivity|].
  destruct (phase_by_day thursday participant eq_refl) as (_ & Hwinner & _).
  apply Hwinner. reflexivity.
Defined.

(** *** The announced times *)

Lemma Day_addDays t k : Day (addDays t k) = (Day t + k)%Z.
Proof. unfold Day, addDays, msPerDay. by rewrite Z.div_add. Qed.

Lemma setHours_split t hours minutes seconds ms :
  (0 ≤ hours * 3600000 + minutes * 60000 + seconds * 1000 + ms < msPerDay)%Z →
  Day (setHours t hours minutes seconds ms) = Day t ∧
  TimeWithinDay (setHours t hours minutes seconds ms)
  = (hours * 3600000 + minutes * 60000 + seconds * 1000 + ms)%Z.
Proof.
  intros Hrange. unfold TimeWithinDay, setHours.
  generalize (Day t) as d. intros d. unfold Day.
  replace (d * msPerDay + hours * 3600000 + minutes * 60000 + seconds * 1000 + ms)%Z
    with ((hours * 3600000 + minutes * 60000 + seconds * 1000 + ms) + d * msPerDay)%Z
    by lia.
  rewrite Z.div_add, Z.mod_add by (unfold msPerDay; lia).
  rewrite Z.div_small, Z.mod_small by done. split; lia.
Qed.

Lemma getDay_Day t : getDay t = ((Day t + 4) `mod` 7)%Z.
Proof. done. Qed.

(** The day of the week [c] of the week of [now], at a time of the day. *)
Lemma weekday_of_this_week now c hours minutes :
  (0 ≤ c < 7)%Z →
  (0 ≤ hours * 3600000 + minutes * 60000 < msPerDay)%Z →
  Day (setHours (addDays now (c - getDay now)) hours minutes 0 0)
  = (Day now + c - getDay now)%Z ∧
  getDay (setHours (addDays now (c - getDay now)) hours minutes 0 0) = c ∧
  TimeWithinDay (setHours (addDays now (c - getDay now)) hours minutes 0 0)
  = (hours * 3600000 + minutes * 60000)%Z.
Proof.
  intros Hc Hrange.
  destruct (setHours_split (addDays now (c - getDay now)) hours minutes 0 0)
    as [Hday Htime]; [lia|].
  rewrite Day_addDays in Hday. split_and!; [lia | | lia].
  rewrite getDay_Day, Hday, getDay_Day.
  pose proof (Z.div_mod (Day now + 4) 7 ltac:(lia)) as Hdiv.
  replace (Day now + (c - (Day now + 4) `mod` 7) + 4)%Z
    with (c + (Day now + 4) `div` 7 * 7)%Z by lia.
  rewrite Z.mod_add by lia. apply Z.mod_small. lia.
Qed.

Lemma time_split t :
  t = (Day t * msPerDay + TimeWithinDay t)%Z ∧ (0 ≤ TimeWithinDay t < msPerDay)%Z.
Proof.
  unfold Day, TimeWithinDay, msPerDay. split.
  - pose proof (Z.div_mod t 86400000 ltac:(lia)). lia.
  - apply Z.mod_pos_bound. lia.
Qed.

Lemma scheduledPhase_day today :
  scheduledPhase today
  = if decide (getDay today = 4)%Z then winner
    else if decide (2 ≤ getDay today)%Z then voting else submission.
Proof.
  unfold scheduledPhase, determineCurrentPhase. by repeat case_decide.
Qed.

Lemma getNextPhaseTime_split phase now :
  let t := getNextPhaseTime phase now in
  (Day t - getDay t = Day now - getDay now)%Z ∧
  getDay t = match phase with submission => 2 | voting => 4 | winner => 5 end%Z ∧
  TimeWithinDay t
  = match phase with
    | submission => 23 * 3600000 + 59 * 60000
    | voting => 17 * 3600000
    | winner => 8 * 3600000
    end%Z.
Proof.
  unfold getNextPhaseTime. destruct phase.
  - destruct (weekday_of_this_week now 2 23 59) as (Hday & Hweek & Htime);
      [lia | unfold msPerDay; lia |]. simpl. split_and!; [lia | done | done].
  - destruct (weekday_of_this_week now 4 17 0) as (Hday & Hweek & Htime);
      [lia | unfold msPerDay; lia |]. simpl. split_and!; [lia | done | done].
  - destruct (weekday_of_this_week now 5 8 0) as (Hday & Hweek & Htime);
      [lia | unfold msPerDay; lia |]. simpl. split_and!; [lia | done | done].
Qed.

(** X1. The time that [getNextPhaseTime] announces lies in the week (Sunday
    to Saturday) of the call: for [submission] on its Tuesday at 23:59, for
    [voting] on its Thursday at 17:00, for [winner] on its Friday at 8:00. *)
Theorem next_phase_time_in_week phase now :
  let t := getNextPhaseTime phase now in
  (Day t - getDay t = Day now - getDay now)%Z ∧
  getDay t = match phase with submission => 2 | voting => 4 | winner => 5 end%Z ∧
  TimeWithinDay t
  = match phase with
    | submission => 23 * 3600000 + 59 * 60000
    | voting => 17 * 3600000
    | winner => 8 * 3600000
    end%Z.
Proof. apply getNextPhaseTime_split. Qed.

(** X2. For the phase that the schedule computes, the announced time is
    ahead of the call from Sunday to Thursday; on Friday and Saturday the
    phase is [voting] and the announced end of voting, Thursday 17:00 of the
    same week, is already past. *)
Theorem announced_time_ahead_or_past now :
  let t := getNextPhaseTime (scheduledPhase now) now in
  ((getDay now ≤ 4)%Z ∧ (now < t)%Z) ∨
  ((5 ≤ getDay now)%Z ∧ scheduledPhase now = voting ∧ (t < now)%Z).
Proof.
  intros t. subst t.
  pose proof (getDay_range now) as Hrange.
  destruct (time_split now) as [Hnow Htod].
  pose proof (getNextPhaseTime_split (scheduledPhase now) now) as (Hweek & Hday & Htime).
  destruct (time_split (getNextPhaseTime (scheduledPhase now) now)) as [Ht Httod].
  rewrite scheduledPhase_day in *. unfold msPerDay in *.
  destruct (decide (getDay now = 4)%Z) as [H4|H4].
  { left. split; lia. }
  destruct (decide (2 ≤ getDay now)%Z) as [H2|H2]; [|left; split; lia].
  destruct (decide (getDay now ≤ 4)%Z); [left; split; lia|].
  right. split_and!; [lia | done | lia].
Qed.

(** X3. Each announced time falls in another phase than the announcement
    says: at "submissions close" (Tuesday 23:59) the schedule has been in
    [voting] since the start of Tuesday, at "voting ends" (Thursday 17:00) it
    is in [winner], and at "next submissions open" (Friday 8:00) it is in
    [voting], not in [submission]. *)
Theorem phase_at_announced_times now :
  scheduledPhase (getNextPhaseTime submission now) = voting ∧
  scheduledPhase (getNextPhaseTime voting now) = winner ∧
  scheduledPhase (getNextPhaseTime winner now) = voting.
Proof.
  rewrite !scheduledPhase_day.
  destruct (getNextPhaseTime_split submission now) as (_ & -> & _).
  destruct (getNextPhaseTime_split voting now) as (_ & -> & _).
  destruct (getNextPhaseTime_split winner now) as (_ & -> & _).
  done.
Qed.

End ScheduleProofs.

(** ** The ledger *)

Module LedgerProofs.
Import Ledger.

Lemma userSubmissions_owned nightId db l userId :
  fetched nightId db l →
  length (filter (λ s, Tally.user_id s = userId) l) = owned userId nightId db.
Proof.
  unfold fetched, owned. intros Hfetched.
  assert (length (filter (λ s, Tally.user_id s = userId) l)
          = length (filter (λ r, submissions.user_id r = userId) (row_of <$> l)))
    as ->.
  { clear. induction l as [|s l IH]; [done|]. rewrite fmap_cons, !filter_cons.
    simpl. case_decide; simpl; by rewrite IH. }
  rewrite Hfetched, list_filter_filter. done.
Qed.

Lemma voteRows_elem user l v :
  v ∈ voteRows user l →
  votes.user_id v = user_id user ∧
  votes.submission_id v ∈ Tally.submission_id <$> l.
Proof.
  unfold voteRows. intros [i Hi]%list_elem_of_lookup_1.
  apply list_lookup_imap_Some in Hi as (s & Hs & ->). simpl. split; [done|].
  apply list_elem_of_fmap_2. by eapply list_elem_of_lookup_2.
Qed.

Lemma voteRows_submission_id user l :
  votes.submission_id <$> voteRows user l = Tally.submission_id <$> l.
Proof.
  unfold voteRows. rewrite fmap_imap. apply imap_const.
Qed.

Lemma voteRows_rank user l :
  votes.rank <$> voteRows user l = seq 1 (length l).
Proof.
  unfold voteRows. rewrite fmap_imap.
  rewrite (imap_ext _ (λ index _, index + 1)) by done.
  rewrite imap_seq_0. generalize (length l) as n. intros n.
  rewrite <-fmap_S_seq. apply list_fmap_ext. intros ???. lia.
Qed.

(** C7. When the requests succeed, [handleSubmitVotes] deletes the votes of
    the user for the listed candidates and inserts one vote per listed
    candidate, in order, with rank position + 1, so the ranks inserted are
    1..k and the votes of the user for the listed candidates are then exactly
    the inserted ones.  A vote of the user for a candidate that is not listed
    is kept: the votes of the user for any set of candidates are the stored
    ones for its unlisted candidates followed by the inserted ones for its
    listed candidates.  With the listed candidates among those of the night,
    the votes of the user for the night are the inserted ones exactly when
    the store held no vote of the user for an unlisted candidate of the
    night. *)
Theorem ballots_replaced faults st db user :
  currentUser st = Some user →
  delete_votes_error faults = None →
  insert_votes_error faults = None →
  let listed := Tally.submission_id <$> userVotes st in
  let night := Tally.submission_id <$> submissions st in
  let inserted := voteRows user (userVotes st) in
  let db' := (handleSubmitVotes faults st db).2 in
  votes_table db'
  = filter (λ v, ¬ (votes.user_id v = user_id user ∧
                    votes.submission_id v ∈ listed)) (votes_table db)
    ++ inserted ∧
  votes.submission_id <$> inserted = listed ∧
  votes.rank <$> inserted = seq 1 (length (userVotes st)) ∧
  (∀ i s, userVotes st !! i = Some s →
     inserted !! i
     = Some (votes.mkInsert (Tally.submission_id s) (user_id user) (i + 1))) ∧
  filter (λ v, votes.user_id v = user_id user ∧ votes.submission_id v ∈ listed)
         (votes_table db')
  = inserted ∧
  (∀ candidates : list nat,
     filter (λ v, votes.user_id v = user_id user ∧
                  votes.submission_id v ∈ candidates)
            (votes_table db')
     = filter (λ v, votes.user_id v = user_id user ∧
                    votes.submission_id v ∈ candidates ∧
                    votes.submission_id v ∉ listed)
              (votes_table db)
       ++ filter (λ v, votes.submission_id v ∈ candidates) inserted) ∧
  (listed ⊆ night →
     filter (λ v, votes.user_id v = user_id user ∧ votes.submission_id v ∈ night)
            (votes_table db')
     = inserted
     ↔ filter (λ v, votes.user_id v = user_id user ∧
                    votes.submission_id v ∈ night ∧
                    votes.submission_id v ∉ listed)
              (votes_table db)
       = []).
Proof.
  intros Huser Hdelete Hinsert listed night inserted db'.
  assert (votes_table db'
          = filter (λ v, ¬ (votes.user_id v = user_id user ∧
                            votes.submission_id v ∈ listed)) (votes_table db)
            ++ inserted) as Htable.
  { subst listed inserted db'. unfold handleSubmitVotes.
    by rewrite Huser, Hdelete, Hinsert. }
  assert (∀ candidates : list nat,
     filter (λ v, votes.user_id v = user_id user ∧
                  votes.submission_id v ∈ candidates)
            (votes_table db')
     = filter (λ v, votes.user_id v = user_id user ∧
                    votes.submission_id v ∈ candidates ∧
                    votes.submission_id v ∉ listed)
              (votes_table db)
       ++ filter (λ v, votes.submission_id v ∈ candidates) inserted) as Hparts.
  { intros candidates. rewrite Htable, filter_app, list_filter_filter. f_equal.
    - apply filter_ext_elem. intros v _. tauto.
    - apply filter_ext_elem. intros v [Hu _]%voteRows_elem. tauto. }
  split_and!; [done | apply voteRows_submission_id | apply voteRows_rank | | | done |].
  - intros i s Hs. subst inserted. unfold voteRows. by rewrite list_lookup_imap, Hs.
  - rewrite Hparts, filter_none, filter_all; [done | |].
    + by intros v [_ Hv]%voteRows_elem.
    + intros v _. tauto.
  - intros Hlisted. rewrite Hparts.
    rewrite (filter_all _ inserted).
    2:{ intros v [_ Hv]%voteRows_elem. by apply Hlisted. }
    split.
    + intros Heq. apply nil_length_inv.
      apply (f_equal length) in Heq. rewrite length_app in Heq. lia.
    + by intros ->.
Qed.

(** C8. [handleSubmitMovie] tests the quota on the list of the state, which
    shows what the user owns in the night when it is in step with the store.
    A user with [MAX_SUBMISSIONS] = 2 submissions (or more) in that list gets
    the quota message and the store is left as it was; a user with fewer
    whose requests succeed gets one row appended to the submissions, for the
    night, the user and the id of the selected movie. *)
Theorem quota_enforced now faults st db movie user :
  selectedMovie st = Some movie →
  currentUser st = Some user →
  let nightId := getCurrentMovieNight now in
  let shown :=
    length (filter (λ s, Tally.user_id s = user_id user) (submissions st)) in
  MAX_SUBMISSIONS = 2 ∧
  (fetched nightId db (submissions st) → shown = owned (user_id user) nightId db) ∧
  (MAX_SUBMISSIONS ≤ shown →
     handleSubmitMovie now faults st db = (setError (Some quota_message) st, db) ∧
     quota_message = "You can only submit 2 movies per movie night") ∧
  (shown < MAX_SUBMISSIONS →
     select_night_error faults = None →
     insert_night_error faults = None →
     insert_submission_error faults = None →
     let db' := (handleSubmitMovie now faults st db).2 in
     submissions_table db'
     = submissions_table db
       ++ [submissions.mkInsert nightId (user_id user) (id movie)] ∧
     owned (user_id user) nightId db' = S (owned (user_id user) nightId db) ∧
     votes_table db' = votes_table db).
Proof.
  intros Hmovie Huser nightId shown. subst nightId shown.
  split; [done|]. split; [apply userSubmissions_owned|]. split.
  - intros Hquota. split; [|by vm_compute].
    unfold handleSubmitMovie. rewrite Hmovie, Huser.
    by rewrite decide_True.
  - intros Hbelow Hselect Hnight Hinsert db'. subst db'.
    unfold handleSubmitMovie. rewrite Hmovie, Huser.
    rewrite decide_False by lia.
    unfold ensureMovieNightExists. rewrite Hselect.
    case_decide; rewrite ?Hnight, Hinsert; simpl.
    + split_and!; [done | | done]. unfold owned. simpl.
      rewrite filter_app, length_app, filter_cons_True by done. simpl. lia.
    + split_and!; [done | | done]. unfold owned. simpl.
      rewrite filter_app, length_app, filter_cons_True by done. simpl. lia.
Qed.

(** *** The night of a time *)

(** The rounding up of [timeDiff / msPerWeek]. *)
Lemma weeks_rounded_up a k :
  ((k - 1) * msPerWeek < a ≤ k * msPerWeek)%Z → (- ((- a) `div` msPerWeek))%Z = k.
Proof.
  change msPerWeek with 604800000%Z. intros Ha.
  assert ((- a) `div` 604800000 = - k)%Z as ->; [|lia].
  symmetry. apply (Z.div_unique _ _ _ (k * 604800000 - a)); lia.
Qed.

(** X4. The night of a time is at least 1 and never decreases as time
    passes.  (The code divides in floating point.  For every time a [Date]
    can hold the difference is an integer below 2^53 and the quotient is
    below 2^24, so its rounding error is less than the distance of a
    fractional quotient to the next integer, and rounding it up gives the
    exact value.) *)
Theorem night_never_decreases now later :
  (now ≤ later)%Z →
  1 ≤ getCurrentMovieNight now ∧
  getCurrentMovieNight now ≤ getCurrentMovieNight later.
Proof.
  intros Hle. unfold getCurrentMovieNight. split; [lia|].
  apply Z2Nat.inj_le; [lia | lia |].
  apply Z.max_le_compat_l.
  assert ((- (later - startDate)) `div` msPerWeek
          ≤ (- (now - startDate)) `div` msPerWeek)%Z; [|lia].
  apply Z.div_le_mono; [change msPerWeek with 604800000%Z|]; lia.
Qed.

(** X5. Nights are the weeks after the start date, closed on the right: a
    time later than [k - 1] weeks and at most [k] weeks after the start date
    is in night [k], and every time up to one week after the start date,
    the start date and all earlier times included, is in night 1. *)
Theorem night_of_week (now : Z) (k : nat) :
  (1 ≤ k →
   (startDate + (Z.of_nat k - 1) * msPerWeek < now)%Z →
   (now ≤ startDate + Z.of_nat k * msPerWeek)%Z →
   getCurrentMovieNight now = k) ∧
  ((now ≤ startDate + msPerWeek)%Z → getCurrentMovieNight now = 1).
Proof.
  unfold getCurrentMovieNight. split.
  - intros Hk Hlow Hhigh. rewrite (weeks_rounded_up _ (Z.of_nat k)) by lia. lia.
  - intros Hnow.
    assert (- ((- (now - startDate)) `div` msPerWeek) ≤ 1)%Z; [|lia].
    assert (- 1 ≤ (- (now - startDate)) `div` msPerWeek)%Z; [|lia].
    change msPerWeek with 604800000%Z in *.
    apply Z.div_le_lower_bound; lia.
Qed.

(** *** Creating the night *)



(** X7. [ensureMovieNightExists] returns false exactly when the select
    fails, or the night has no row and the insert fails; it then leaves the
    store as it was and shows "An error occurred", whatever message the
    failed request carries, since the error of a request is not an [Error].
    When it returns true the state is untouched. *)
Theorem ensure_night_failure now faults nightId st db :
  let '(ok, st', db') := ensureMovieNightExists now faults nightId st db in
  (ok = false ↔
     is_Some (select_night_error faults) ∨
     (nightRows nightId db = [] ∧ is_Some (insert_night_error faults))) ∧
  (ok = false → db' = db ∧ st' = setError (Some "An error occurred") st) ∧
  (ok = true → st' = st).
Proof.
  unfold ensureMovieNightExists. fold (nightRows nightId db).
  destruct (select_night_error faults) as [msg|] eqn:Hselect.
  { split_and!; [split; eauto | done | done]. }
  destruct (decide (length (nightRows nightId db) = 0)) as [Hnone|Hsome].
  - apply length_zero_iff_nil in Hnone.
    destruct (insert_night_error faults) as [msg|] eqn:Hinsert.
    + split_and!; [split; eauto | done | done].
    + split_and!; [|done|done]. split; [done|].
      intros [[? [=]]|[_ [? [=]]]].
  - split_and!; [|done|done]. split; [done|].
    intros [[? [=]]|[Hnil _]]. by rewrite Hnil in Hsome.
Qed.

(** *** Submitting a movie *)

(** What [handleSubmitMovie] can do to the store, whatever the state and the
    answers of the requests. *)
Lemma handleSubmitMovie_store now faults st db :
  let nightId := getCurrentMovieNight now in
  let db' := (handleSubmitMovie now faults st db).2 in
  votes_table db' = votes_table db ∧
  (movie_nights_table db' = movie_nights_table db ∨
   (nightRows nightId db = [] ∧
    movie_nights_table db'
    = movie_nights_table db ++ [movie_nights.mkInsert nightId now None])) ∧
  (submissions_table db' = submissions_table db ∨
   ∃ movie user,
     selectedMovie st = Some movie ∧ currentUser st = Some user ∧
     length (filter (λ s, Tally.user_id s = user_id user) (submissions st))
       < MAX_SUBMISSIONS ∧
     insert_submission_error faults = None ∧
     submissions_table db'
     = submissions_table db
       ++ [submissions.mkInsert nightId (user_id user) (id movie)]).
Proof.
  intros nightId db'. subst nightId db'. unfold handleSubmitMovie.
  destruct (selectedMovie st) as [movie|] eqn:Hmovie; [|by split_and!; [|left|left]].
  destruct (currentUser st) as [user|] eqn:Huser; [|by split_and!; [|left|left]].
  case_decide as Hquota; [by split_and!; [|left|left]|].
  unfold ensureMovieNightExists. fold (nightRows (getCurrentMovieNight now) db).
  destruct (select_night_error faults); [by split_and!; [|left|left]|].
  destruct (decide (length (nightRows (getCurrentMovieNight now) db) = 0))
    as [Hnone%length_zero_iff_nil|Hsome].
  - destruct (insert_night_error faults); [by split_and!; [|left|left]|].
    destruct (insert_submission_error faults) eqn:Hinsert; simpl.
    + split_and!; [done | by right | by left].
    + split_and!; [done | by right |]. right. exists movie, user.
      split_and!; [done | done | lia | done | done].
  - destruct (insert_submission_error faults) eqn:Hinsert; simpl.
    + split_and!; [done | by left | by left].
    + split_and!; [done | by left |]. right. exists movie, user.
      split_and!; [done | done | lia | done | done].
Qed.

Lemma owned_app userId nightId db db' row :
  submissions_table db' = submissions_table db ++ [row] →
  owned userId nightId db'
  = owned userId nightId db
    + (if decide (submissions.user_id row = userId ∧
                  submissions.night_id row = nightId) then 1 else 0).
Proof.
  unfold owned. intros ->. rewrite filter_app, length_app, filter_cons, filter_nil.
  by case_decide.
Qed.

(** X8. [handleSubmitMovie] never deletes and never writes votes: whatever
    the state and the answers of the requests, the votes stay, the nights
    gain at most the row of the current night, and the submissions gain at
    most one row, which is for the current night, the logged-in user and the
    selected movie. *)
Theorem submit_movie_footprint now faults st db :
  let nightId := getCurrentMovieNight now in
  let db' := (handleSubmitMovie now faults st db).2 in
  votes_table db' = votes_table db ∧
  (movie_nights_table db' = movie_nights_table db ∨
   (nightRows nightId db = [] ∧
    movie_nights_table db'
    = movie_nights_table db ++ [movie_nights.mkInsert nightId now None])) ∧
  (submissions_table db' = submissions_table db ∨
   ∃ movie user,
     selectedMovie st = Some movie ∧ currentUser st = Some user ∧
     submissions_table db'
     = submissions_table db
       ++ [submissions.mkInsert nightId (user_id user) (id movie)]).
Proof.
  destruct (handleSubmitMovie_store now faults st db) as (Hvotes & Hnights & Hsubs).
  split_and!; [done | done |].
  destruct Hsubs as [?|(movie & user & ? & ? & _ & _ & ?)]; [by left|].
  right. by exists movie, user.
Qed.

(** X9. The quota is kept: when the list of the state is the fetched list of
    the night and no user owns more than [MAX_SUBMISSIONS] submissions in
    the night, the same holds after [handleSubmitMovie], whatever the
    requests answer. *)
Theorem quota_is_invariant now faults st db :
  fetched (getCurrentMovieNight now) db (submissions st) →
  (∀ userId, owned userId (getCurrentMovieNight now) db ≤ MAX_SUBMISSIONS) →
  ∀ userId,
    owned userId (getCurrentMovieNight now) (handleSubmitMovie now faults st db).2
    ≤ MAX_SUBMISSIONS.
Proof.
  intros Hfetched Hquota userId.
  destruct (handleSubmitMovie_store now faults st db) as (_ & _ & Hsubs).
  destruct Hsubs as [Hsame|(movie & user & _ & _ & Hbelow & _ & Happ)].
  - unfold owned. rewrite Hsame. apply Hquota.
  - rewrite (owned_app _ _ _ _ _ Happ). simpl.
    rewrite (userSubmissions_owned _ _ _ (user_id user) Hfetched) in Hbelow.
    case_decide as Hrow; [|specialize (Hquota userId); lia].
    destruct Hrow as [<- _]. lia.
Qed.

(** X10. The quota is decided on the list of the state alone: when that list
    shows fewer than [MAX_SUBMISSIONS] submissions of the user and the
    requests succeed, the row is inserted whatever the store holds, and the
    user owns one more submission than before. *)
Theorem quota_reads_client_list now faults st db movie user :
  selectedMovie st = Some movie →
  currentUser st = Some user →
  length (filter (λ s, Tally.user_id s = user_id user) (submissions st))
    < MAX_SUBMISSIONS →
  select_night_error faults = None →
  insert_night_error faults = None →
  insert_submission_error faults = None →
  let nightId := getCurrentMovieNight now in
  let db' := (handleSubmitMovie now faults st db).2 in
  submissions_table db'
  = submissions_table db ++ [submissions.mkInsert nightId (user_id user) (id movie)] ∧
  owned (user_id user) nightId db' = S (owned (user_id user) nightId db).
Proof.
  intros Hmovie Huser Hbelow Hselect Hnight Hinsert nightId db'. subst nightId db'.
  assert (submissions_table (handleSubmitMovie now faults st db).2
          = submissions_table db
            ++ [submissions.mkInsert (getCurrentMovieNight now) (user_id user) (id movie)])
    as Happ.
  { unfold handleSubmitMovie. rewrite Hmovie, Huser.
    rewrite decide_False by lia.
    unfold ensureMovieNightExists. rewrite Hselect.
    case_decide; rewrite ?Hnight, Hinsert; done. }
  split; [done|]. rewrite (owned_app _ _ _ _ _ Happ). simpl.
  rewrite decide_True by done. lia.
Qed.

(** *** Submitting a ranking *)

Lemma keptVotes_voteRows user l table :
  keptVotes user (Tally.submission_id <$> l) (table ++ voteRows user l)
  = keptVotes user (Tally.submission_id <$> l) table.
Proof.
  unfold keptVotes. rewrite filter_app, (filter_none _ (voteRows user l)).
  - by rewrite app_nil_r.
  - intros v Hv%voteRows_elem. tauto.
Qed.

Lemma keptVotes_idemp user listed table :
  keptVotes user listed (keptVotes user listed table) = keptVotes user listed table.
Proof.
  unfold keptVotes. apply filter_all. by intros v [? _]%list_elem_of_filter.
Qed.

(** X11. Submitting the same ranking again gives the same store and the same
    state as submitting it once, whatever the requests answer (the same
    answers both times). *)
Theorem resubmit_same_ranking faults st db :
  handleSubmitVotes faults st (handleSubmitVotes faults st db).2
  = handleSubmitVotes faults st db.
Proof.
  unfold handleSubmitVotes.
  destruct (currentUser st) as [user|]; [|done].
  destruct (delete_votes_error faults); [done|].
  fold (keptVotes user (Tally.submission_id <$> userVotes st) (votes_table db)).
  destruct (insert_votes_error faults); simpl.
  - fold (keptVotes user (Tally.submission_id <$> userVotes st)
            (keptVotes user (Tally.submission_id <$> userVotes st) (votes_table db))).
    by rewrite keptVotes_idemp.
  - fold (keptVotes user (Tally.submission_id <$> userVotes st)
            (keptVotes user (Tally.submission_id <$> userVotes st) (votes_table db)
             ++ voteRows user (userVotes st))).
    by rewrite keptVotes_voteRows, keptVotes_idemp.
Qed.

(** X12. [handleSubmitVotes] touches only the votes of the logged-in user
    for the listed candidates: whatever the requests answer, nights and
    submissions stay, every other vote stays, in order, and without a user
    nothing changes. *)
Theorem other_votes_untouched faults st db :
  let db' := (handleSubmitVotes faults st db).2 in
  movie_nights_table db' = movie_nights_table db ∧
  submissions_table db' = submissions_table db ∧
  match currentUser st with
  | None => db' = db
  | Some user =>
      keptVotes user (Tally.submission_id <$> userVotes st) (votes_table db')
      = keptVotes user (Tally.submission_id <$> userVotes st) (votes_table db)
  end.
Proof.
  unfold handleSubmitVotes.
  destruct (currentUser st) as [user|]; [|done].
  destruct (delete_votes_error faults); [done|].
  fold (keptVotes user (Tally.submission_id <$> userVotes st) (votes_table db)).
  destruct (insert_votes_error faults); simpl.
  - by rewrite keptVotes_idemp.
  - by rewrite keptVotes_voteRows, keptVotes_idemp.
Qed.

(** X13. The two requests of [handleSubmitVotes] are separate.  When the
    delete fails the store is as before; when the delete succeeds and the
    insert fails the user is left without any vote for the listed
    candidates; in both cases "An error occurred" is shown, whatever message
    the failed request carries. *)
Theorem replacement_can_stop_halfway faults st db user msg :
  currentUser st = Some user →
  let listed := Tally.submission_id <$> userVotes st in
  (delete_votes_error faults = Some msg →
     handleSubmitVotes faults st db
     = (setError (Some "An error occurred") st, db)) ∧
  (delete_votes_error faults = None → insert_votes_error faults = Some msg →
     (handleSubmitVotes faults st db).1 = setError (Some "An error occurred") st ∧
     votes_table (handleSubmitVotes faults st db).2
     = keptVotes user listed (votes_table db) ∧
     filter (λ v, votes.user_id v = user_id user ∧ votes.submission_id v ∈ listed)
            (votes_table (handleSubmitVotes faults st db).2)
     = []).
Proof.
  intros Huser listed. subst listed. unfold handleSubmitVotes. rewrite Huser.
  split.
  - by intros ->.
  - intros -> ->. simpl. split_and!; [done | done |].
    apply filter_none. intros v [Hkept _]%list_elem_of_filter. done.
Qed.

(** *** Reading the ranking back *)

Lemma insert_by_Permutation {A} (key : A → nat) x l : insert_by key x l ≡ₚ x :: l.
Proof.
  induction l as [|y l IH]; simpl; [done|].
  case_decide; [done|]. rewrite IH. apply Permutation_swap.
Qed.

Lemma sort_by_Permutation {A} (key : A → nat) (l : list A) : sort_by key l ≡ₚ l.
Proof.
  induction l as [|x l IH]; simpl; [done|].
  by rewrite insert_by_Permutation, IH.
Qed.

Lemma insert_by_Sorted {A} (key : A → nat) x l :
  Sorted (λ a b, key a ≤ key b) l → Sorted (λ a b, key a ≤ key b) (insert_by key x l).
Proof.
  induction 1 as [|y l Hl IH Hhd]; simpl.
  - by repeat constructor.
  - case_decide as Hle.
    + by repeat constructor.
    + constructor; [done|].
      destruct Hhd as [|z l' Hyz]; simpl.
      * constructor. lia.
      * case_decide; constructor; [lia | done].
Qed.

Lemma sort_by_Sorted {A} (key : A → nat) (l : list A) :
  Sorted (λ a b, key a ≤ key b) (sort_by key l).
Proof.
  induction l as [|x l IH]; simpl; [constructor|]. by apply insert_by_Sorted.
Qed.

(** Elements of equal key keep their order. *)
Lemma insert_by_stable {A} (key : A → nat) k x l :
  filter (λ a, key a = k) (insert_by key x l) = filter (λ a, key a = k) (x :: l).
Proof.
  induction l as [|y l IH]; simpl; [done|].
  case_decide as Hle; [done|].
  rewrite (filter_cons _ y), IH, !(filter_cons _ x), !(filter_cons _ y).
  repeat case_decide; try done; lia.
Qed.

Lemma sort_by_stable {A} (key : A → nat) k (l : list A) :
  filter (λ a, key a = k) (sort_by key l) = filter (λ a, key a = k) l.
Proof.
  induction l as [|x l IH]; simpl; [done|].
  by rewrite insert_by_stable, !filter_cons, IH.
Qed.

Lemma key_order_Transitive {A} (key : A → nat) :
  Transitive (λ a b, key a ≤ key b).
Proof. intros a b c ??. lia. Qed.

Lemma Sorted_lookup {A} (R : relation A) (l : list A) :
  (∀ i a b, l !! i = Some a → l !! S i = Some b → R a b) → Sorted R l.
Proof.
  induction l as [|x l IH]; intros Hnext; constructor.
  - apply IH. intros i a b Ha Hb. by apply (Hnext (S i)).
  - destruct l as [|y l]; constructor. by apply (Hnext 0).
Qed.

(** X14. When the query succeeds and returns votes, [checkUserVotes] sets
    [hasVoted] and makes the working list the fetched submissions arranged
    by the rank of the user's vote: no submission is lost or doubled, ranks
    ascend with the submissions without a vote (rank 0) first, and
    submissions of equal rank keep their fetched order.  Without votes it
    clears [hasVoted] and keeps the working list; a failed query changes
    nothing. *)
Theorem checkUserVotes_arranges nightOf userId nightId hasVoted st db :
  let data :=
    selectUserVotes nightOf userId nightId
                    (Tally.submission_id <$> submissions st) db in
  let result := checkUserVotes None nightOf userId nightId hasVoted st db in
  result.1 = bool_decide (data ≠ []) ∧
  submissions result.2 = submissions st ∧
  (data = [] ∧ result.2 = st ∨
   data ≠ [] ∧
   userVotes result.2 ≡ₚ submissions st ∧
   Sorted (λ a b, rankIn data a ≤ rankIn data b) (userVotes result.2) ∧
   ∀ k, filter (λ a, rankIn data a = k) (userVotes result.2)
        = filter (λ a, rankIn data a = k) (submissions st)) ∧
  (∀ msg, checkUserVotes (Some msg) nightOf userId nightId hasVoted st db
          = (hasVoted, st)).
Proof.
  intros data result. subst result. unfold checkUserVotes. fold data.
  destruct data as [|v data'] eqn:Hdata.
  - simpl. split_and!; [done | done | by left | done].
  - rewrite decide_True by (simpl; lia). simpl.
    split_and!; [done | done | | done]. right.
    split_and!; [done | apply sort_by_Permutation | apply sort_by_Sorted |].
    intros k. apply sort_by_stable.
Qed.

Lemma rankIn_voteRows user l i s :
  NoDup (Tally.submission_id <$> l) → l !! i = Some s →
  rankIn (voteRows user l) s = i + 1.
Proof.
  intros Hnd Hi. unfold rankIn.
  assert (list_find (λ v, votes.submission_id v = Tally.submission_id s)
                    (voteRows user l)
          = Some (i, votes.mkInsert (Tally.submission_id s) (user_id user) (i + 1)))
    as ->; [|done].
  apply list_find_Some. unfold voteRows. split_and!.
  - by rewrite list_lookup_imap, Hi.
  - done.
  - intros j v Hj Hlt Hv.
    apply list_lookup_imap_Some in Hj as (s' & Hs' & ->). simpl in Hv.
    assert (j = i); [|lia].
    apply (NoDup_lookup _ _ _ (Tally.submission_id s) Hnd);
      rewrite list_lookup_fmap; [rewrite Hs'; simpl; by rewrite Hv | by rewrite Hi].
Qed.

(** X15. The working list comes back as it was submitted.  After
    [handleSubmitVotes] has stored a ranking of candidates with distinct
    ids, all of the night, [checkUserVotes] over the same candidates fetched
    in any order sets [hasVoted] and restores exactly the submitted order. *)
Theorem ranking_round_trip faults nightOf st db user nightId hasVoted :
  currentUser st = Some user →
  delete_votes_error faults = None →
  insert_votes_error faults = None →
  userVotes st ≠ [] →
  NoDup (Tally.submission_id <$> userVotes st) →
  submissions st ≡ₚ userVotes st →
  (∀ s, s ∈ userVotes st → nightOf (Tally.submission_id s) = Some nightId) →
  checkUserVotes None nightOf (user_id user) nightId hasVoted st
                 (handleSubmitVotes faults st db).2
  = (true, st).
Proof.
  intros Huser Hdelete Hinsert Hne Hnd Hperm Hnight.
  assert (selectUserVotes nightOf (user_id user) nightId
            (Tally.submission_id <$> submissions st)
            (handleSubmitVotes faults st db).2
          = voteRows user (userVotes st)) as Hdata.
  { unfold handleSubmitVotes, selectUserVotes.
    rewrite Huser, Hdelete, Hinsert. simpl.
    rewrite filter_app, filter_none, filter_all; [done | |].
    - intros v Hv. pose proof (voteRows_elem _ _ _ Hv) as [Hu Hid].
      split_and!; [done | | by rewrite Hperm].
      apply list_elem_of_fmap in Hid as (s & -> & Hs). by apply Hnight.
    - intros v [Hkept _]%list_elem_of_filter (Hu & _ & Hid). apply Hkept.
      split; [done|]. by rewrite <-Hperm. }
  unfold checkUserVotes. rewrite Hdata.
  rewrite decide_True.
  2:{ unfold voteRows. rewrite length_imap. destruct (userVotes st); [done|simpl; lia]. }
  f_equal.
  assert (sort_by (rankIn (voteRows user (userVotes st))) (submissions st)
          = userVotes st) as ->; [|by destruct st].
  apply (@Sorted_unique_strong _
           (λ a b, rankIn (voteRows user (userVotes st)) a
                   ≤ rankIn (voteRows user (userVotes st)) b)
           (key_order_Transitive _)).
  - intros x1 x2 Hx1 Hx2 H12 H21.
    rewrite sort_by_Permutation, Hperm in Hx1.
    apply list_elem_of_lookup_1 in Hx1 as [i Hi], Hx2 as [j Hj].
    rewrite (rankIn_voteRows _ _ _ _ Hnd Hi), (rankIn_voteRows _ _ _ _ Hnd Hj)
      in H12, H21.
    assert (i = j) as -> by lia. congruence.
  - apply sort_by_Sorted.
  - apply Sorted_lookup. intros i a b Ha Hb.
    rewrite (rankIn_voteRows _ _ _ _ Hnd Ha), (rankIn_voteRows _ _ _ _ Hnd Hb). lia.
  - by rewrite sort_by_Permutation.
Qed.

(** *** The claims at given inputs *)

Lemma ballots_replaced_witness :
  votes_table (handleSubmitVotes no_faults full_state full_store).2
  = [votes.mkInsert 1 8 1;
     votes.mkInsert 3 7 1; votes.mkInsert 2 7 2; votes.mkInsert 1 7 3] ∧
  votes.rank <$> voteRows alice (userVotes full_state) = [1; 2; 3] ∧
  filter (λ v, votes.user_id v = 7 ∧
               votes.submission_id v ∈ Tally.submission_id <$> submissions full_state)
         (votes_table (handleSubmitVotes no_faults full_state full_store).2)
  = voteRows alice (userVotes full_state).
Proof.
  destruct (ballots_replaced no_faults full_state full_store alice
              eq_refl eq_refl eq_refl) as (Htable & _ & Hranks & _ & _ & _ & Hnight).
  split_and!; [rewrite Htable; reflexivity | exact Hranks |].
  apply Hnight; [done | by_evaluation].
Defined.

(** C7, as the claim states it, fails.  Alice holds votes for the three
    movies of the night and her list names two of them: after the call her
    vote for the third is still stored, so her votes for the movies of the
    night are not the inserted ones, and two of them have rank 1. *)
Lemma partial_list_keeps_old_ballot :
  filter (λ v, votes.user_id v = 7 ∧
               votes.submission_id v
               ∈ Tally.submission_id <$> submissions partial_state)
         (votes_table (handleSubmitVotes no_faults partial_state voted_store).2)
  = [votes.mkInsert 3 7 1; votes.mkInsert 1 7 1; votes.mkInsert 2 7 2] ∧
  voteRows alice (userVotes partial_state)
  = [votes.mkInsert 1 7 1; votes.mkInsert 2 7 2] ∧
  filter (λ v, votes.user_id v = 7 ∧
               votes.submission_id v
               ∈ Tally.submission_id <$> submissions partial_state)
         (votes_table (handleSubmitVotes no_faults partial_state voted_store).2)
  ≠ voteRows alice (userVotes partial_state) ∧
  error (handleSubmitVotes no_faults partial_state voted_store).1 = None.
Proof.
  split_and!; [vm_compute; reflexivity.. | | vm_compute; reflexivity].
  intros Heq. vm_compute in Heq. discriminate Heq.
Qed.

Lemma quota_enforced_witness :
  handleSubmitMovie now0 no_faults full_state full_store
    = (setError (Some quota_message) full_state, full_store) ∧
  submissions_table (handleSubmitMovie now0 no_faults bob_state full_store).2
    = submissions_table full_store ++ [submissions.mkInsert 43 8 603].
Proof.
  split.
  - destruct (quota_enforced now0 no_faults full_state full_store matrix alice
                eq_refl eq_refl) as (_ & _ & Hquota & _).
    apply Hquota. vm_compute. lia.
  - destruct (quota_enforced now0 no_faults bob_state full_store matrix bob
                eq_refl eq_refl) as (_ & _ & _ & Hbelow).
    apply Hbelow; [vm_compute; lia | reflexivity..].
Defined.

(** C8, as the claim states it, fails.  Alice owns two submissions in the
    night, the list of the state shows one of them: the call raises no error
    and appends a third row for her. *)
Lemma quota_passed_behind_store :
  owned 7 (getCurrentMovieNight now0) full_store = MAX_SUBMISSIONS ∧
  submissions_table (handleSubmitMovie now0 no_faults behind_state full_store).2
  = submissions_table full_store ++ [submissions.mkInsert 43 7 603] ∧
  owned 7 (getCurrentMovieNight now0)
        (handleSubmitMovie now0 no_faults behind_state full_store).2
  = 3 ∧
  error (handleSubmitMovie now0 no_faults behind_state full_store).1 = None.
Proof. split_and!; vm_compute; reflexivity. Qed.

Lemma night_never_decreases_witness :
  1 ≤ getCurrentMovieNight now0 ∧
  getCurrentMovieNight now0 ≤ getCurrentMovieNight (now0 + msPerWeek).
Proof.
  apply (night_never_decreases now0 (now0 + msPerWeek)).
  unfold now0. change msPerWeek with 604800000%Z. lia.
Defined.


Lemma quota_is_invariant_witness :
  owned 7 (getCurrentMovieNight now0)
        (handleSubmitMovie now0 no_faults full_state full_store).2
  ≤ MAX_SUBMISSIONS.
Proof.
  apply (quota_is_invariant now0 no_faults full_state full_store).
  - unfold fetched. by_evaluation.
  - intros userId. unfold owned, full_store. simpl.
    rewrite !filter_cons, filter_nil. simpl.
    change (getCurrentMovieNight now0) with 43.
    repeat case_decide; simpl; unfold MAX_SUBMISSIONS; lia.
Defined.

Lemma quota_reads_client_list_witness :
  submissions_table (handleSubmitMovie now0 no_faults stale_state full_store).2
  = submissions_table full_store ++ [submissions.mkInsert 43 7 603] ∧
  owned 7 43 (handleSubmitMovie now0 no_faults stale_state full_store).2 = 3.
Proof.
  apply (quota_reads_client_list now0 no_faults stale_state full_store matrix alice);
    try reflexivity.
  vm_compute. lia.
Defined.

Lemma replacement_can_stop_halfway_witness :
  filter (λ v, votes.user_id v = 7 ∧
               votes.submission_id v ∈ Tally.submission_id <$> userVotes full_state)
         (votes_table (handleSubmitVotes insert_votes_fails full_state full_store).2)
  = [].
Proof.
  destruct (replacement_can_stop_halfway insert_votes_fails full_state full_store
              alice "insert failed" eq_refl) as [_ Hinsert].
  apply Hinsert; reflexivity.
Defined.

Lemma ranking_round_trip_witness :
  checkUserVotes None (λ _, Some 43) 7 43 false reordered_state
                 (handleSubmitVotes no_faults reordered_state full_store).2
  = (true, reordered_state).
Proof.
  apply (ranking_round_trip no_faults (λ _, Some 43) reordered_state full_store alice).
  - reflexivity.
  - reflexivity.
  - reflexivity.
  - discriminate.
  - by_evaluation.
  - apply Permutation_swap.
  - reflexivity.
Defined.

End LedgerProofs.

(** ** The first version of the application *)

Module FirstAppProofs.
Import FirstApp.

(** X22. The winner of the first [App] is the first fetched submission with
    the most votes, with [voteCount] set to the number of its votes; on an
    empty list the reduce has nothing to start from and throws. *)
Theorem most_voted_first data :
  match winningSubmission data with
  | None => data = []
  | Some w =>
      ∃ i s,
        data !! i = Some s ∧ w = withVoteCount s ∧
        (∀ s', s' ∈ data → length (votes s') ≤ length (votes s)) ∧
        (∀ j s', data !! j = Some s' → j < i → length (votes s') < length (votes s))
  end.
Proof.
  unfold winningSubmission.
  destruct (withVoteCount <$> data) as [|first rest] eqn:Hdata.
  - by apply fmap_nil_inv in Hdata.
  - destruct (foldl_first_greatest voteCount first rest) as (i & Hi & Hmax & Hfirst).
    rewrite <-Hdata in Hi, Hmax, Hfirst.
    apply list_lookup_fmap_Some in Hi as (s & Hw & Hs).
    exists i, s. rewrite Hw in Hmax, Hfirst. split_and!; [done | done | |].
    + intros s' Hs'. apply (Hmax (withVoteCount s')). by apply list_elem_of_fmap_2.
    + intros j s' Hj Hlt. apply (Hfirst j (withVoteCount s')); [|done].
      by apply list_lookup_fmap_Some_2.
Qed.

End FirstAppProofs.
